(** * AegisProtector: reversible redaction with a two-way mapping

    A verification development for [aegis_sdk/aegis_protector.py].

    The class keeps two Python dicts, [_mapping] (text -> placeholder) and
    [_reverse_mapping] (placeholder -> text).  They are modelled as finite
    maps with string keys; methods are computations in a small
    state-and-exception monad over the object, so that both the value a
    method returns, the exception it raises and the state it leaves behind
    are visible in the statements.

    A Python [str] is represented by the byte string of its UTF-8 encoding
    ([String.string]); [text.encode()] is therefore the identity on the
    representation.  A [str] holding a lone surrogate code point has no
    UTF-8 encoding ([encode] raises) and has no representative here.
    [hashlib.sha256] is modelled by the FIPS 180-4 algorithm itself, run on
    the bytes.  [str.upper] depends on the Unicode case tables of the
    interpreter and is a parameter of the development. *)

From Stdlib Require Import ZArith Ascii String.
From stdpp Require Import gmap strings list fin_maps.

(** ** SHA-256 (FIPS 180-4), as computed by [hashlib.sha256] *)

Module Sha256.
Local Open Scope Z_scope.

(** 32-bit words are integers in [0, 2^32); every sum is reduced. *)
Definition wrap32 (x : Z) : Z := x mod 2 ^ 32.

Definition add32 (x y : Z) : Z := wrap32 (x + y).

Definition rotr (n x : Z) : Z :=
  Z.lor (Z.shiftr x n) (wrap32 (Z.shiftl x (32 - n))).

Definition not32 (x : Z) : Z := Z.lxor x 0xffffffff.

Definition Ch (x y z : Z) : Z :=
  Z.lxor (Z.land x y) (Z.land (not32 x) z).

Definition Maj (x y z : Z) : Z :=
  Z.lxor (Z.lxor (Z.land x y) (Z.land x z)) (Z.land y z).

Definition bsig0 (x : Z) : Z :=
  Z.lxor (Z.lxor (rotr 2 x) (rotr 13 x)) (rotr 22 x).

Definition bsig1 (x : Z) : Z :=
  Z.lxor (Z.lxor (rotr 6 x) (rotr 11 x)) (rotr 25 x).

Definition ssig0 (x : Z) : Z :=
  Z.lxor (Z.lxor (rotr 7 x) (rotr 18 x)) (Z.shiftr x 3).

Definition ssig1 (x : Z) : Z :=
  Z.lxor (Z.lxor (rotr 17 x) (rotr 19 x)) (Z.shiftr x 10).

(** The first sixty-four primes. *)
Definition primes : list Z :=
  [2; 3; 5; 7; 11; 13; 17; 19; 23; 29; 31; 37; 41; 43; 47; 53;
   59; 61; 67; 71; 73; 79; 83; 89; 97; 101; 103; 107; 109; 113; 127; 131;
   137; 139; 149; 151; 157; 163; 167; 173; 179; 181; 191; 193; 197; 199;
   211; 223; 227; 229; 233; 239; 241; 251; 257; 263; 269; 271; 277; 281;
   283; 293; 307; 311].

(** Integer cube root, one bit at a time from bit [k - 1] down: the
largest [r] below [2 ^ k] with [r ^ 3 <= n]. *)
Fixpoint cube_root_bits (k : nat) (n r : Z) : Z :=
  match k with
  | O => r
  | S k' =>
      let r' := Z.lor r (Z.shiftl 1 (Z.of_nat k')) in
      cube_root_bits k' n (if r' * r' * r' <=? n then r' else r)
  end.

(** First 32 bits of the fractional part of a cube root, of a square
root. *)
Definition frac_cbrt32 (p : Z) : Z := wrap32 (cube_root_bits 40 (p * 2 ^ 96) 0).

Definition frac_sqrt32 (p : Z) : Z := wrap32 (Z.sqrt (p * 2 ^ 64)).

(** The round constants come from the cube roots of the primes. *)
Definition round_constants : list Z :=
  Eval vm_compute in List.map frac_cbrt32 primes.

(** The eight chaining words. *)
Record regs : Type := Regs {
  ra : Z; rb : Z; rc : Z; rd : Z; re : Z; rf : Z; rg : Z; rh : Z
}.

(** The initial chaining value comes from the square roots of the first
eight primes. *)
Definition initial_regs : regs :=
  Eval vm_compute in
    Regs (frac_sqrt32 2) (frac_sqrt32 3) (frac_sqrt32 5) (frac_sqrt32 7)
         (frac_sqrt32 11) (frac_sqrt32 13) (frac_sqrt32 17) (frac_sqrt32 19).

(** Padding: a 0x80 byte, zero bytes up to 56 modulo 64, then the bit
    length as a 64-bit big-endian integer. *)
Definition be_bytes (n : nat) (x : Z) : list Z :=
  List.map (fun i => Z.land (Z.shiftr x (8 * Z.of_nat i)) 0xff)
           (List.rev (List.seq 0 n)).

Definition pad (msg : list Z) : list Z :=
  let len := Z.of_nat (length msg) in
  let zeros := Z.to_nat ((55 - len) mod 64) in
  msg ++ 0x80 :: List.repeat 0 zeros ++ be_bytes 8 ((8 * len) mod 2 ^ 64).

(** Big-endian grouping of bytes into 32-bit words. *)
Fixpoint words_of_bytes (bs : list Z) : list Z :=
  match bs with
  | b0 :: b1 :: b2 :: b3 :: rest =>
      (Z.shiftl b0 24 + Z.shiftl b1 16 + Z.shiftl b2 8 + b3)
        :: words_of_bytes rest
  | _ => []
  end.

(** Sixteen-word blocks. *)
Fixpoint blocks_of (fuel : nat) (ws : list Z) : list (list Z) :=
  match fuel, ws with
  | S fuel', _ :: _ => take 16 ws :: blocks_of fuel' (drop 16 ws)
  | _, _ => []
  end.

(** Message schedule.  [recent] holds the words computed so far, newest
    first, so W(t-2), W(t-7), W(t-15), W(t-16) sit at 1, 6, 14, 15. *)
Fixpoint extend_schedule (n : nat) (recent : list Z) : list Z :=
  match n with
  | O => recent
  | S n' =>
      let w := add32 (add32 (add32 (ssig1 (nth 1 recent 0)) (nth 6 recent 0))
                            (ssig0 (nth 14 recent 0)))
                     (nth 15 recent 0) in
      extend_schedule n' (w :: recent)
  end.

Definition schedule (block : list Z) : list Z :=
  List.rev (extend_schedule 48 (List.rev block)).

Definition round (s : regs) (kw : Z * Z) : regs :=
  let t1 := add32 (add32 (add32 (add32 (rh s) (bsig1 (re s)))
                                (Ch (re s) (rf s) (rg s)))
                         (fst kw))
                  (snd kw) in
  let t2 := add32 (bsig0 (ra s)) (Maj (ra s) (rb s) (rc s)) in
  Regs (add32 t1 t2) (ra s) (rb s) (rc s) (add32 (rd s) t1) (re s) (rf s) (rg s).

Definition compress (h : regs) (block : list Z) : regs :=
  let s := List.fold_left round (combine round_constants (schedule block)) h in
  Regs (add32 (ra h) (ra s)) (add32 (rb h) (rb s))
       (add32 (rc h) (rc s)) (add32 (rd h) (rd s))
       (add32 (re h) (re s)) (add32 (rf h) (rf s))
       (add32 (rg h) (rg s)) (add32 (rh h) (rh s)).

Definition digest (msg : list Z) : regs :=
  let ws := words_of_bytes (pad msg) in
  List.fold_left compress (blocks_of (length ws) ws) initial_regs.

(** Lower-case hexadecimal rendering, as [hexdigest] prints it. *)
Definition hex_digit (d : Z) : ascii :=
  match d with
  | 0 => "0" | 1 => "1" | 2 => "2" | 3 => "3" | 4 => "4"
  | 5 => "5" | 6 => "6" | 7 => "7" | 8 => "8" | 9 => "9"
  | 10 => "a" | 11 => "b" | 12 => "c" | 13 => "d" | 14 => "e"
  | _ => "f"
  end%char.

Definition nibble (w : Z) (i : Z) : ascii :=
  hex_digit (Z.land (Z.shiftr w (4 * i)) 0xf).

Definition hex_word (w : Z) (rest : string) : string :=
  String (nibble w 7) (String (nibble w 6) (String (nibble w 5)
  (String (nibble w 4) (String (nibble w 3) (String (nibble w 2)
  (String (nibble w 1) (String (nibble w 0) rest))))))).

Definition hex_of_regs (r : regs) : string :=
  hex_word (ra r) (hex_word (rb r) (hex_word (rc r) (hex_word (rd r)
  (hex_word (re r) (hex_word (rf r) (hex_word (rg r)
  (hex_word (rh r) EmptyString))))))).

Fixpoint bytes_of_string (s : string) : list Z :=
  match s with
  | EmptyString => []
  | String a s' => Z.of_N (N_of_ascii a) :: bytes_of_string s'
  end.

(** [hashlib.sha256(data).hexdigest()] *)
Definition hexdigest (data : string) : string :=
  hex_of_regs (digest (bytes_of_string data)).
End Sha256.

(** ** Python values: exceptions, dict operations *)

Inductive exn : Type :=
| KeyError (key : string)
| ValueError (msg : string).

Inductive result (A : Type) : Type :=
| Ok (a : A)
| Raise (e : exn).
Arguments Ok {A} a.
Arguments Raise {A} e.

(** [k in d] *)
Definition dict_contains (d : gmap string string) (k : string) : bool :=
  bool_decide (is_Some (d !! k)).

(** [d[k]]: raises [KeyError] on a missing key. *)
Definition dict_getitem (d : gmap string string) (k : string) : result string :=
  match d !! k with
  | Some v => Ok v
  | None => Raise (KeyError k)
  end.

(** [len(d)] *)
Definition dict_len (d : gmap string string) : nat := size d.

(** [d.items()].  The loops below only ask whether every item passes a
    test, so the order of enumeration does not show in their result. *)
Definition dict_items (d : gmap string string) : list (string * string) :=
  map_to_list d.

(** [s[:n]] on a string. *)
Definition str_prefix (n : nat) (s : string) : string := substring 0 n s.

(** Truth value of a [str]: only the empty string is false. *)
Definition str_truthy (s : string) : bool :=
  match s with
  | EmptyString => false
  | String _ _ => true
  end.

(** Upper-casing of the ASCII letters, byte by byte; [str.upper] agrees
    with it on ASCII strings. *)
Definition ascii_upper_char (a : ascii) : ascii :=
  let n := N_of_ascii a in
  if ((97 <=? n) && (n <=? 122))%N then ascii_of_N (n - 32) else a.

Fixpoint ascii_upper (s : string) : string :=
  match s with
  | EmptyString => EmptyString
  | String a s' => String (ascii_upper_char a) (ascii_upper s')
  end.

(** ** The class *)

Record AegisProtector : Type := mkAegisProtector {
  _mapping : gmap string string;
  _reverse_mapping : gmap string string
}.

(** [__init__]: both dicts empty. *)
Definition init : AegisProtector := mkAegisProtector ∅ ∅.

(** A method body: runs on the object, returns a value or raises, and
    leaves the object in a new state either way. *)
Definition Method (A : Type) : Type :=
  AegisProtector -> result A * AegisProtector.

Definition ret {A} (a : A) : Method A := fun self => (Ok a, self).

Definition raise {A} (e : exn) : Method A := fun self => (Raise e, self).

Definition bind {A B} (m : Method A) (k : A -> Method B) : Method B :=
  fun self =>
    match m self with
    | (Ok a, self') => k a self'
    | (Raise e, self') => (Raise e, self')
    end.

Definition lift {A} (r : result A) : Method A := fun self => (r, self).

Definition get_self : Method AegisProtector := fun self => (Ok self, self).

(** [self._mapping[k] = v] *)
Definition set_mapping (k v : string) : Method unit :=
  fun self =>
    (Ok tt, mkAegisProtector (<[k := v]> (_mapping self)) (_reverse_mapping self)).

(** [self._reverse_mapping[k] = v] *)
Definition set_reverse_mapping (k v : string) : Method unit :=
  fun self =>
    (Ok tt, mkAegisProtector (_mapping self) (<[k := v]> (_reverse_mapping self))).

Declare Scope method_scope.
Delimit Scope method_scope with method.
Notation "x <~ m ;; k" := (bind m (fun x => k))
  (at level 100, m at next level, right associativity) : method_scope.
Notation "m ;;; k" := (bind m (fun _ => k))
  (at level 100, right associativity) : method_scope.
Local Open Scope method_scope.

(** The value a call returns and the state it leaves. *)
Definition outcome {A} (m : Method A) (self : AegisProtector) : result A :=
  fst (m self).
Definition after {A} (m : Method A) (self : AegisProtector) : AegisProtector :=
  snd (m self).

(** [text.encode()] on the UTF-8 representation. *)
Definition str_encode (text : string) : string := text.

(** [hashlib.sha256(text.encode()).hexdigest()[:8]] *)
Definition text_hash (text : string) : string :=
  str_prefix 8 (Sha256.hexdigest (str_encode text)).

Section Protector.
(** [str.upper] *)
Variable upper : string -> string.

(** The placeholder [redact] builds for a text it has not seen: the
    [if entity_type:] test fails on [None] and on the empty string. *)
Definition make_placeholder (text : string) (entity_type : option string) : string :=
  match entity_type with
  | Some e =>
      if str_truthy e
      then "[REDACTED_" +:+ upper e +:+ "_" +:+ text_hash text +:+ "]"
      else "[REDACTED_" +:+ text_hash text +:+ "]"
  | None => "[REDACTED_" +:+ text_hash text +:+ "]"
  end.

Definition redact (text : string) (entity_type : option string) : Method string :=
  self <~ get_self ;;
  if dict_contains (_mapping self) text then
    lift (dict_getitem (_mapping self) text)
  else
    let placeholder := make_placeholder text entity_type in
    set_mapping text placeholder ;;;
    set_reverse_mapping placeholder text ;;;
    ret placeholder.

(** [[self.redact(t, c) for (t, c) in calls]] *)
Fixpoint redact_all (calls : list (string * option string)) : Method (list string) :=
  match calls with
  | [] => ret []
  | (text, entity_type) :: rest =>
      p <~ redact text entity_type ;;
      ps <~ redact_all rest ;;
      ret (p :: ps)
  end.

(** [n] calls with the same arguments. *)
Definition redact_times (n : nat) (text : string) (entity_type : option string)
  : Method (list string) :=
  redact_all (replicate n (text, entity_type)).

(** States linked by a finite run of [redact] calls. *)
Inductive redacts (st : AegisProtector) : AegisProtector -> Prop :=
| redacts_nil : redacts st st
| redacts_snoc st1 text entity_type :
    redacts st st1 ->
    redacts st (after (redact text entity_type) st1).

(** States of a mapper that was constructed and then only redacted on. *)
Definition reachable (st : AegisProtector) : Prop := redacts init st.
End Protector.

Definition unredact (placeholder : string) : Method string :=
  self <~ get_self ;;
  if negb (dict_contains (_reverse_mapping self) placeholder) then
    raise (ValueError ("Placeholder '" +:+ placeholder +:+ "' not found in mapping"))
  else
    lift (dict_getitem (_reverse_mapping self) placeholder).

(** First loop of [validate_integrity]; [false] stands for the early
    [return False], [true] for running off the end of the loop. *)
Fixpoint forward_loop (self : AegisProtector) (items : list (string * string))
  : result bool :=
  match items with
  | [] => Ok true
  | (text, placeholder) :: rest =>
      if negb (dict_contains (_reverse_mapping self) placeholder) then Ok false
      else
        match dict_getitem (_reverse_mapping self) placeholder with
        | Raise e => Raise e
        | Ok t =>
            if negb (String.eqb t text) then Ok false
            else forward_loop self rest
        end
  end.

(** Second loop. *)
Fixpoint reverse_loop (self : AegisProtector) (items : list (string * string))
  : result bool :=
  match items with
  | [] => Ok true
  | (placeholder, text) :: rest =>
      if negb (dict_contains (_mapping self) text) then Ok false
      else
        match dict_getitem (_mapping self) text with
        | Raise e => Raise e
        | Ok p =>
            if negb (String.eqb p placeholder) then Ok false
            else reverse_loop self rest
        end
  end.

Definition validate_integrity : Method bool :=
  self <~ get_self ;;
  if negb (dict_len (_mapping self) =? dict_len (_reverse_mapping self))%nat then
    ret false
  else
    fwd_ok <~ lift (forward_loop self (dict_items (_mapping self))) ;;
    if negb fwd_ok then ret false
    else
      rev_ok <~ lift (reverse_loop self (dict_items (_reverse_mapping self))) ;;
      if negb rev_ok then ret false
      else ret true.

(** The placeholder format in the words of the interface description:
    the category part is present whenever a category is given. *)
Definition spec_placeholder (upper : string -> string)
    (text : string) (category : option string) : string :=
  "[REDACTED_"
    +:+ match category with Some c => upper c +:+ "_" | None => "" end
    +:+ text_hash text +:+ "]".

(** [needle in haystack] for strings, as a proposition. *)
Definition contains_substring (haystack needle : string) : Prop :=
  exists pre post, haystack = pre +:+ needle +:+ post.

(** The two indices are exact inverses, in the words of the interface
    description: equal cardinality, every forward pair matched by a reverse
    entry with the same text, every reverse pair matched by a forward entry
    with the same placeholder. *)
Definition forward_matched (st : AegisProtector) : Prop :=
  forall t p, _mapping st !! t = Some p -> _reverse_mapping st !! p = Some t.

Definition reverse_matched (st : AegisProtector) : Prop :=
  forall p t, _reverse_mapping st !! p = Some t -> _mapping st !! t = Some p.

Definition exact_inverses (st : AegisProtector) : Prop :=
  dict_len (_mapping st) = dict_len (_reverse_mapping st)
  /\ forward_matched st /\ reverse_matched st.

(** Every forward placeholder is a key of the reverse index. *)
Definition forward_covered (st : AegisProtector) : Prop :=
  forall t p, _mapping st !! t = Some p -> is_Some (_reverse_mapping st !! p).

(** The text [t] shares its placeholder with no other text of the forward
    index. *)
Definition unshared (st : AegisProtector) (t : string) : Prop :=
  map_Forall (fun t' p' => _mapping st !! t = Some p' -> t' = t) (_mapping st).

#[global] Instance unshared_dec st t : Decision (unshared st t).
Proof. unfold unshared. apply _. Defined.

(** No two texts of the forward index share a placeholder. *)
Definition forward_injective (st : AegisProtector) : Prop :=
  map_Forall (fun t _ => unshared st t) (_mapping st).

#[global] Instance forward_injective_dec st : Decision (forward_injective st).
Proof. unfold forward_injective. apply _. Defined.

(** [[self.unredact(p) for p in placeholders]], the loop the test suite
    runs over the placeholders it collected. *)
Fixpoint unredact_all (placeholders : list string) : Method (list string) :=
  match placeholders with
  | [] => ret []
  | placeholder :: rest =>
      t <~ unredact placeholder ;;
      ts <~ unredact_all rest ;;
      ret (t :: ts)
  end.

(** [s.startswith(prefix)] *)
Definition str_startswith (s prefix : string) : bool := String.prefix prefix s.

(** Texts with pairwise distinct digest prefixes. *)
Definition hashes_distinct (texts : list string) : bool :=
  forallb (fun t1 =>
             forallb (fun t2 =>
                        implb (String.eqb (text_hash t1) (text_hash t2))
                              (String.eqb t1 t2))
                     texts)
          texts.

(** Every text that has the placeholder [p] in [st2] was already in the
    forward dict in [st1]: no text that entered the forward dict after
    [st1] has the placeholder [p]. *)
Definition none_added_since (st1 st2 : AegisProtector) (p : string) : Prop :=
  forall t', _mapping st2 !! t' = Some p -> is_Some (_mapping st1 !! t').

(** The call at position [i] of [calls], run from state [st], is the one
    that adds the text [t] to the forward dict: the text is not in the
    forward dict of [st] and no earlier call of the batch names it. *)
Definition adds_text (st : AegisProtector) (calls : list (string * option string))
    (i : nat) (t : string) (c : option string) : Prop :=
  calls !! i = Some (t, c)
  /\ _mapping st !! t = None
  /\ forall j c', j < i -> calls !! j <> Some (t, c').

(** What every run of [redact] calls keeps true of the two dicts. *)
Record consistent (st : AegisProtector) : Prop := Consistent {
  cons_reverse : reverse_matched st;
  cons_covered : forward_covered st;
  cons_size_le : dict_len (_reverse_mapping st) <= dict_len (_mapping st);
  cons_size_eq :
    dict_len (_reverse_mapping st) = dict_len (_mapping st) <-> forward_injective st
}.

(** The characters [0-9a-f]. *)
Definition is_lower_hex (a : ascii) : bool :=
  let n := N_of_ascii a in
  ((48 <=? n) && (n <=? 57) || (97 <=? n) && (n <=? 102))%N.

Fixpoint string_forall (f : ascii -> bool) (s : string) : bool :=
  match s with
  | EmptyString => true
  | String a s' => f a && string_forall f s'
  end.

(** Two texts whose eight-digit digest prefixes coincide. *)
Definition text_a : string := "user92207@example.com".
Definition text_b : string := "user134538@example.com".

(** The derived constants, spot-checked against FIPS 180-4. *)
Example round_constants_ends :
  List.length Sha256.round_constants = 64
  /\ List.hd 0%Z Sha256.round_constants = 0x428a2f98%Z
  /\ List.last Sha256.round_constants 0%Z = 0xc67178f2%Z.
Proof. repeat split. Qed.

Example initial_regs_ends :
  Sha256.ra Sha256.initial_regs = 0x6a09e667%Z
  /\ Sha256.rh Sha256.initial_regs = 0x5be0cd19%Z.
Proof. split; reflexivity. Qed.

(** Known answers (FIPS 180-4 examples and the empty message). *)
Example sha256_empty :
  Sha256.hexdigest "" =
  "e3b0c44298fc1c149afbf4c8996fb92427ae41e4649b934ca495991b7852b855".
Proof. vm_compute. reflexivity. Qed.

Example sha256_abc :
  Sha256.hexdigest "abc" =
  "ba7816bf8f01cfea414140de5dae2223b00361a396177a9cb410ff61f20015ad".
Proof. vm_compute. reflexivity. Qed.

Example sha256_two_blocks :
  Sha256.hexdigest "abcdbcdecdefdefgefghfghighijhijkijkljklmklmnlmnomnopnopq" =
  "248d6a61d20638b8e5c026930c3e6039a33ce45964ff2167f6ecedd419db06c1".
Proof. vm_compute. reflexivity. Qed.

Example text_hash_a : text_hash text_a = "25c9abc9".
Proof. vm_compute. reflexivity. Qed.

Example text_hash_b : text_hash text_b = "25c9abc9".
Proof. vm_compute. reflexivity. Qed.

Example redact_john_doe :
  outcome (redact ascii_upper "John Doe" None) init = Ok "[REDACTED_6cea57c2]".
Proof. vm_compute. reflexivity. Qed.

(** Empty text, and text with symbols and non-ASCII characters (as UTF-8
    bytes): redact, then unredact. *)
Example roundtrip_empty_text :
  outcome (p <~ redact ascii_upper "" (Some "name") ;; unredact p) init = Ok ""
  /\ outcome (redact ascii_upper "" (Some "name")) init
     = Ok "[REDACTED_NAME_e3b0c442]".
Proof. split; vm_compute; reflexivity. Qed.

Example roundtrip_unicode_text :
  outcome (p <~ redact ascii_upper "Zoë 東京 ✓ <&>" None ;; unredact p) init
  = Ok "Zoë 東京 ✓ <&>"
  /\ outcome (redact ascii_upper "Zoë 東京 ✓ <&>" None) init
     = Ok "[REDACTED_839184ba]"
  /\ String.length "Zoë 東京 ✓ <&>" = 19.
Proof. split; [|split]; vm_compute; reflexivity. Qed.

(** The sequence Alice, Bob, Alice, Bob of the test suite. *)
Example redact_alice_bob :
  outcome (redact_all ascii_upper
             [("Alice", None); ("Bob", None); ("Alice", None); ("Bob", None)]) init
  = Ok ["[REDACTED_3bc51062]"; "[REDACTED_cd9fb1e1]";
        "[REDACTED_3bc51062]"; "[REDACTED_cd9fb1e1]"].
Proof. vm_compute. reflexivity. Qed.

Example unredact_unknown_placeholder :
  outcome (unredact "[REDACTED_UNKNOWN]") init
  = Raise (ValueError "Placeholder '[REDACTED_UNKNOWN]' not found in mapping").
Proof. vm_compute. reflexivity. Qed.


(** ** Dict operations *)

Lemma dict_contains_Some d k v : d !! k = Some v -> dict_contains d k = true.
Proof. intros H. apply bool_decide_eq_true. eauto. Qed.

Lemma dict_contains_None d k : d !! k = None -> dict_contains d k = false.
Proof.
  intros H. apply bool_decide_eq_false. rewrite H. apply is_Some_None.
Qed.

Lemma dict_getitem_Some d k v : d !! k = Some v -> dict_getitem d k = Ok v.
Proof. unfold dict_getitem. by intros ->. Qed.

(** A guarded subscript never raises. *)
Lemma dict_getitem_guarded d k :
  dict_contains d k = true -> exists v, d !! k = Some v /\ dict_getitem d k = Ok v.
Proof.
  intros H. apply bool_decide_eq_true in H as [v Hv].
  exists v. split; [done | by apply dict_getitem_Some].
Qed.

(** ** One call of [redact] *)

Section RedactStep.
Variable upper : string -> string.

Lemma redact_known st text entity_type p :
  _mapping st !! text = Some p ->
  redact upper text entity_type st = (Ok p, st).
Proof.
  intros H. unfold redact, bind, get_self, lift.
  by rewrite (dict_contains_Some _ _ _ H), (dict_getitem_Some _ _ _ H).
Qed.

Lemma redact_fresh st text entity_type :
  _mapping st !! text = None ->
  redact upper text entity_type st =
    (Ok (make_placeholder upper text entity_type),
     mkAegisProtector
       (<[text := make_placeholder upper text entity_type]> (_mapping st))
       (<[make_placeholder upper text entity_type := text]> (_reverse_mapping st))).
Proof.
  intros H. unfold redact, bind, get_self.
  by rewrite (dict_contains_None _ _ H).
Qed.

(** [redact] returns a placeholder on every state; the text is in the
    forward index afterwards, under the placeholder returned. *)
Lemma redact_returns st text entity_type :
  exists p,
    outcome (redact upper text entity_type) st = Ok p /\
    _mapping (after (redact upper text entity_type) st) !! text = Some p.
Proof.
  unfold outcome, after.
  destruct (_mapping st !! text) as [p|] eqn:E.
  - exists p. by rewrite (redact_known _ _ _ _ E).
  - eexists. rewrite (redact_fresh _ _ _ E). simpl.
    split; [done | apply lookup_insert_eq].
Qed.

Lemma redact_forward_mono st text entity_type t p :
  _mapping st !! t = Some p ->
  _mapping (after (redact upper text entity_type) st) !! t = Some p.
Proof.
  intros H. unfold after.
  destruct (_mapping st !! text) as [q|] eqn:E.
  - by rewrite (redact_known _ _ _ _ E).
  - rewrite (redact_fresh _ _ _ E). simpl.
    rewrite lookup_insert_ne; [done | congruence].
Qed.

Lemma redacts_forward_mono st st' t p :
  redacts upper st st' ->
  _mapping st !! t = Some p -> _mapping st' !! t = Some p.
Proof.
  induction 1 as [|st1 text entity_type _ IH]; [done |].
  intros H. by apply redact_forward_mono, IH.
Qed.

Lemma redacts_trans st1 st2 st3 :
  redacts upper st1 st2 -> redacts upper st2 st3 -> redacts upper st1 st3.
Proof.
  intros H12 H23. induction H23; [done |]. by constructor.
Qed.

Lemma redacts_redact_all calls st :
  redacts upper st (after (redact_all upper calls) st).
Proof.
  revert st. induction calls as [|[text entity_type] rest IH]; intros st.
  - constructor.
  - pose proof (redact_returns st text entity_type) as (p & Hp & _).
    pose proof (IH (after (redact upper text entity_type) st)) as Hrest.
    assert (after (redact_all upper ((text, entity_type) :: rest)) st =
            after (redact_all upper rest) (after (redact upper text entity_type) st))
      as ->.
    { unfold after, outcome in *. simpl. unfold bind at 1.
      destruct (redact upper text entity_type st) as [r st1]. simpl in *.
      subst r. unfold bind.
      by destruct (redact_all upper rest st1) as [[ps|e] st2]. }
    eapply redacts_trans; [|exact Hrest].
    apply redacts_snoc, redacts_nil.
Qed.
End RedactStep.

(** ** The integrity check *)

Lemma forward_loop_spec self items :
  exists b,
    forward_loop self items = Ok b /\
    (b = true <->
     forall t p, (t, p) ∈ items -> _reverse_mapping self !! p = Some t).
Proof.
  induction items as [|[t p] rest (b & Hb & IH)]; simpl.
  - exists true. split; [done |]. split; [|done].
    intros _ t p Hin. by apply elem_of_nil in Hin.
  - destruct (dict_contains (_reverse_mapping self) p) eqn:Hc; simpl.
    + destruct (dict_getitem_guarded _ _ Hc) as (v & Hv & ->).
      destruct (String.eqb_spec v t) as [->|Hne]; simpl.
      * exists b. split; [done |]. rewrite IH. split.
        -- intros H t' p' [[= -> ->]|Hin]%elem_of_cons; auto.
        -- intros H t' p' Hin. apply H. by right.
      * exists false. split; [done |]. split; [done |].
        intros H. specialize (H t p (list_elem_of_here _ _)). congruence.
    + exists false. split; [done |]. split; [done |].
      intros H. specialize (H t p (list_elem_of_here _ _)).
      apply bool_decide_eq_false in Hc. destruct Hc. eauto.
Qed.

Lemma reverse_loop_spec self items :
  exists b,
    reverse_loop self items = Ok b /\
    (b = true <->
     forall p t, (p, t) ∈ items -> _mapping self !! t = Some p).
Proof.
  induction items as [|[p t] rest (b & Hb & IH)]; simpl.
  - exists true. split; [done |]. split; [|done].
    intros _ p t Hin. by apply elem_of_nil in Hin.
  - destruct (dict_contains (_mapping self) t) eqn:Hc; simpl.
    + destruct (dict_getitem_guarded _ _ Hc) as (v & Hv & ->).
      destruct (String.eqb_spec v p) as [->|Hne]; simpl.
      * exists b. split; [done |]. rewrite IH. split.
        -- intros H p' t' [[= -> ->]|Hin]%elem_of_cons; auto.
        -- intros H p' t' Hin. apply H. by right.
      * exists false. split; [done |]. split; [done |].
        intros H. specialize (H p t (list_elem_of_here _ _)). congruence.
    + exists false. split; [done |]. split; [done |].
      intros H. specialize (H p t (list_elem_of_here _ _)).
      apply bool_decide_eq_false in Hc. destruct Hc. eauto.
Qed.

Lemma validate_integrity_run st :
  exists b,
    validate_integrity st = (Ok b, st) /\ (b = true <-> exact_inverses st).
Proof.
  unfold validate_integrity, bind, get_self, lift, ret, exact_inverses.
  destruct (Nat.eqb_spec (dict_len (_mapping st)) (dict_len (_reverse_mapping st)))
    as [Hlen|Hlen]; simpl.
  2: { exists false. split; [done |]. split; [done | tauto]. }
  destruct (forward_loop_spec st (dict_items (_mapping st))) as (b1 & -> & H1).
  destruct b1; simpl.
  2: { exists false. split; [done |]. split; [done |].
       intros (_ & Hf & _). apply H1.
       intros t p Hin. by apply Hf, elem_of_map_to_list. }
  destruct (reverse_loop_spec st (dict_items (_reverse_mapping st))) as (b2 & -> & H2).
  destruct b2; simpl.
  2: { exists false. split; [done |]. split; [done |].
       intros (_ & _ & Hr). apply H2.
       intros p t Hin. by apply Hr, elem_of_map_to_list. }
  exists true. split; [done |]. split; [|done]. intros _.
  split; [done |]. split.
  - intros t p Hin. apply H1; [done |]. by apply elem_of_map_to_list.
  - intros p t Hin. apply H2; [done |]. by apply elem_of_map_to_list.
Qed.

(** ** What every run of [redact] calls preserves *)

Lemma forward_injective_alt st :
  forward_injective st <->
  forall t1 t2 p,
    _mapping st !! t1 = Some p -> _mapping st !! t2 = Some p -> t1 = t2.
Proof.
  unfold forward_injective, unshared, map_Forall. split.
  - intros H t1 t2 p H1 H2. exact (H t2 p H2 t1 p H1 H2).
  - intros H t p _ t' p' H' Ht. exact (H t' t p' H' Ht).
Qed.

Lemma unshared_alt st t :
  unshared st t <->
  forall t' p, _mapping st !! t = Some p -> _mapping st !! t' = Some p -> t' = t.
Proof.
  unfold unshared, map_Forall. split.
  - intros H t' p Ht Ht'. exact (H t' p Ht' Ht).
  - intros H t' p Ht' Ht. exact (H t' p Ht Ht').
Qed.

Lemma consistent_init : consistent init.
Proof.
  split.
  - intros p t H. simpl in H. by rewrite lookup_empty in H.
  - intros t p H. simpl in H. by rewrite lookup_empty in H.
  - done.
  - split; [|done]. intros _. apply forward_injective_alt.
    intros t1 t2 p H. simpl in H. by rewrite lookup_empty in H.
Qed.

(** Inserting a new text under a placeholder [p]. *)
Lemma consistent_insert st t p :
  consistent st ->
  _mapping st !! t = None ->
  consistent (mkAegisProtector (<[t := p]> (_mapping st))
                               (<[p := t]> (_reverse_mapping st))).
Proof.
  intros [Hrev Hcov Hle Heq] Hfresh.
  assert (Hsf : dict_len (<[t := p]> (_mapping st)) = S (dict_len (_mapping st)))
    by by apply map_size_insert_None.
  split; simpl.
  - intros q u. simpl. rewrite lookup_insert. case_decide as Hq.
    + intros [= <-]. subst q. apply lookup_insert_eq.
    + intros Hu. apply Hrev in Hu. rewrite lookup_insert_ne; [done | congruence].
  - intros u q. simpl. rewrite lookup_insert. case_decide as Hu.
    + intros [= <-]. rewrite lookup_insert_eq. eauto.
    + intros Hq. apply lookup_insert_is_Some'. right. by eapply Hcov.
  - rewrite Hsf. unfold dict_len in *. rewrite map_size_insert.
    destruct (_reverse_mapping st !! p); unfold id; lia.
  - rewrite Hsf, forward_injective_alt. simpl.
    destruct (_reverse_mapping st !! p) as [u|] eqn:Hp.
    + (* the placeholder is taken: the reverse entry is overwritten *)
      split.
      * unfold dict_len in *. rewrite map_size_insert_Some by eauto. lia.
      * intros Hinj. exfalso.
        assert (u = t) as ->.
        { apply (Hinj u t p); [|apply lookup_insert_eq].
          rewrite lookup_insert_ne; [by apply Hrev | ].
          intros ->. apply Hrev in Hp. congruence. }
        apply Hrev in Hp. congruence.
    + assert (Hnone : forall u, _mapping st !! u = Some p -> False).
      { intros u Hu. destruct (Hcov _ _ Hu) as [v Hv]. congruence. }
      unfold dict_len in *. rewrite map_size_insert_None by done.
      rewrite forward_injective_alt in Heq. split.
      * intros Hs. assert (Hinj := proj1 Heq ltac:(lia)).
        intros t1 t2 q. rewrite !lookup_insert.
        repeat case_decide; subst; try done.
        -- intros [= <-] H2. destruct (Hnone _ H2).
        -- intros H1 [= <-]. destruct (Hnone _ H1).
        -- apply Hinj.
      * intros Hinj. f_equal. apply Heq. intros t1 t2 q H1 H2.
        apply (Hinj t1 t2 q); (rewrite lookup_insert_ne; [done | congruence]).
Qed.

Section Reachable.
Variable upper : string -> string.

Lemma consistent_redact st text entity_type :
  consistent st -> consistent (after (redact upper text entity_type) st).
Proof.
  intros Hc. unfold after.
  destruct (_mapping st !! text) as [p|] eqn:E.
  - by rewrite (redact_known _ _ _ _ _ E).
  - rewrite (redact_fresh _ _ _ _ E). simpl. by apply consistent_insert.
Qed.

Lemma consistent_redacts st st' :
  consistent st -> redacts upper st st' -> consistent st'.
Proof.
  intros Hc. induction 1; [done |]. by apply consistent_redact.
Qed.

Lemma reachable_consistent st : reachable upper st -> consistent st.
Proof. apply consistent_redacts, consistent_init. Qed.
End Reachable.

Lemma consistent_exact_inverses st :
  consistent st -> (exact_inverses st <-> forward_injective st).
Proof.
  intros [Hrev Hcov Hle Heq]. split.
  - intros (_ & Hfwd & _). apply forward_injective_alt.
    intros t1 t2 p H1%Hfwd H2%Hfwd. congruence.
  - intros Hinj. split; [symmetry; by apply Heq |]. split; [|done].
    intros t p Ht. destruct (Hcov _ _ Ht) as [u Hu]. rewrite Hu. f_equal.
    rewrite forward_injective_alt in Hinj.
    apply (Hinj u t p); [by apply Hrev | done].
Qed.

(** ** [unredact] *)

Lemma unredact_known st p t :
  _reverse_mapping st !! p = Some t -> unredact p st = (Ok t, st).
Proof.
  intros H. unfold unredact, bind, get_self, lift.
  by rewrite (dict_contains_Some _ _ _ H), (dict_getitem_Some _ _ _ H).
Qed.

Lemma unredact_unknown st p :
  _reverse_mapping st !! p = None ->
  unredact p st =
    (Raise (ValueError ("Placeholder '" +:+ p +:+ "' not found in mapping")), st).
Proof.
  intros H. unfold unredact, bind, get_self, raise.
  by rewrite (dict_contains_None _ _ H).
Qed.

(** C6. For every string [p] and every state, [unredact p] returns the text
    stored under [p] in the reverse index when there is one, and raises
    [ValueError] exactly when [p] is absent; the message of the error
    contains [p]; the state is the same after the call in both cases. *)
Theorem unredact_lookup_or_error st p :
  unredact p st =
    (match _reverse_mapping st !! p with
     | Some t => Ok t
     | None =>
         Raise (ValueError ("Placeholder '" +:+ p +:+ "' not found in mapping"))
     end, st)
  /\ contains_substring ("Placeholder '" +:+ p +:+ "' not found in mapping") p
  /\ ((exists e, outcome (unredact p) st = Raise e)
      <-> _reverse_mapping st !! p = None)
  /\ after (unredact p) st = st.
Proof.
  assert (Hrun : unredact p st =
    (match _reverse_mapping st !! p with
     | Some t => Ok t
     | None =>
         Raise (ValueError ("Placeholder '" +:+ p +:+ "' not found in mapping"))
     end, st)).
  { destruct (_reverse_mapping st !! p) as [t|] eqn:E.
    - by apply unredact_known.
    - by apply unredact_unknown. }
  split; [exact Hrun |]. split; [by exists "Placeholder '", "' not found in mapping" |].
  unfold outcome, after. rewrite Hrun. simpl. split; [|done].
  destruct (_reverse_mapping st !! p) as [t|]; split; try done.
  - by intros [e He].
  - eauto.
Qed.

(** C7. On every state, also one whose two dicts were filled by hand,
    [validate_integrity] raises nothing, leaves the state as it was, and
    returns [True] exactly when the dicts are exact inverses (same size,
    every forward pair matched in the reverse dict, every reverse pair
    matched in the forward dict); otherwise it returns [False]. *)
Theorem validate_integrity_exact_inverses st :
  exists b,
    outcome validate_integrity st = Ok b
    /\ after validate_integrity st = st
    /\ (b = true <-> exact_inverses st)
    /\ (b = false <-> ~ exact_inverses st).
Proof.
  destruct (validate_integrity_run st) as (b & Hrun & Hb).
  exists b. unfold outcome, after. rewrite Hrun. simpl.
  split; [done |]. split; [done |]. split; [exact Hb |].
  destruct b; split; try done.
  - intros Hn. destruct Hn. by apply Hb.
  - intros _ Hx. by apply Hb in Hx.
Qed.

(** ** Strings *)

Lemma string_app_assoc (s1 s2 s3 : string) :
  (s1 +:+ s2) +:+ s3 = s1 +:+ (s2 +:+ s3).
Proof.
  induction s1 as [|a s1 IH]; [done |].
  change (String a ((s1 +:+ s2) +:+ s3) = String a (s1 +:+ (s2 +:+ s3))).
  by rewrite IH.
Qed.

(** ** Properties of [redact] *)

Section RedactProperties.
Variable upper : string -> string.

Lemma redact_all_known st t c p n :
  _mapping st !! t = Some p ->
  redact_all upper (replicate n (t, c)) st = (Ok (replicate n p), st).
Proof.
  intros H. induction n as [|n IH]; [done |].
  cbn [replicate redact_all]. unfold bind at 1.
  rewrite (redact_known _ _ _ _ _ H). unfold bind at 1. by rewrite IH.
Qed.

(** C3 (amended). For every text [t] that is not in the forward index,
    [redact t c] returns ["[REDACTED_"], then the upper-cased category
    and ["_"] when a category is given and is not the empty string, then
    the first 8 hexadecimal characters of SHA-256 of [t], then ["]"]. *)
Theorem redact_fresh_format st t c :
  _mapping st !! t = None ->
  outcome (redact upper t c) st =
    Ok ("[REDACTED_"
          +:+ match c with
              | Some e => if str_truthy e then upper e +:+ "_" else ""
              | None => ""
              end
          +:+ str_prefix 8 (Sha256.hexdigest t) +:+ "]").
Proof.
  intros H. unfold outcome. rewrite (redact_fresh _ _ _ _ H). simpl.
  f_equal. unfold make_placeholder.
  destruct c as [e|]; [|done]. destruct (str_truthy e); [|done].
  f_equal. by rewrite string_app_assoc.
Qed.

(** C4. For every state, text and category, [n] successive calls
    [redact t c] all return the placeholder that the first one returns. *)
Theorem redact_times_same st t c n :
  exists p,
    outcome (redact upper t c) st = Ok p
    /\ outcome (redact_times upper n t c) st = Ok (replicate n p).
Proof.
  destruct (redact_returns upper st t c) as (p & Hp & Hin).
  exists p. split; [done |].
  destruct n as [|n]; [done |].
  unfold redact_times, outcome, after in *.
  cbn [replicate redact_all]. unfold bind at 1.
  destruct (redact upper t c st) as [r st1]. simpl in *. subst r.
  unfold bind at 1. by rewrite (redact_all_known _ _ _ _ _ Hin).
Qed.

(** C5. Once [redact t c1] has been called, a call [redact t c2] made
    after any further [redact] calls, with any category or none, returns
    the placeholder of the first call and leaves the state, hence the
    placeholder stored for [t], as it was. *)
Theorem redact_first_category_wins st t c1 c2 st2 :
  redacts upper (after (redact upper t c1) st) st2 ->
  exists p,
    outcome (redact upper t c1) st = Ok p
    /\ redact upper t c2 st2 = (Ok p, st2)
    /\ _mapping st2 !! t = Some p
    /\ _mapping (after (redact upper t c2) st2) !! t = Some p.
Proof.
  intros Hrun.
  destruct (redact_returns upper st t c1) as (p & Hp & Hin).
  pose proof (redacts_forward_mono _ _ _ _ _ Hrun Hin) as Hin2.
  exists p. unfold after. rewrite (redact_known _ _ _ c2 _ Hin2). done.
Qed.

(** C9. For every text [t] that is not in the forward index,
    [redact t ""] behaves exactly as [redact t] without a category and
    returns ["[REDACTED_" + 8 hex digits + "]"]. *)
Theorem redact_empty_category st t :
  _mapping st !! t = None ->
  redact upper t (Some "") st = redact upper t None st
  /\ outcome (redact upper t (Some "")) st
     = Ok ("[REDACTED_" +:+ str_prefix 8 (Sha256.hexdigest t) +:+ "]").
Proof.
  intros H. unfold outcome. by rewrite !(redact_fresh _ _ _ _ H).
Qed.

(** C10. For every text [t] already in the forward index and every
    category, [redact t c] leaves both dicts exactly as they were (and
    returns the stored placeholder). *)
Theorem redact_known_unchanged st t c :
  is_Some (_mapping st !! t) ->
  after (redact upper t c) st = st
  /\ _mapping (after (redact upper t c) st) = _mapping st
  /\ _reverse_mapping (after (redact upper t c) st) = _reverse_mapping st
  /\ exists p, _mapping st !! t = Some p
               /\ outcome (redact upper t c) st = Ok p.
Proof.
  intros [p Hp]. unfold after, outcome.
  rewrite (redact_known _ _ _ _ _ Hp). simpl. eauto 6.
Qed.
End RedactProperties.

Section Runs.
Variable upper : string -> string.

Lemma redact_reverse_step st text entity_type p t :
  _reverse_mapping st !! p = Some t ->
  _reverse_mapping (after (redact upper text entity_type) st) !! p = Some t
  \/ (_mapping st !! text = None
      /\ _mapping (after (redact upper text entity_type) st) !! text = Some p
      /\ _reverse_mapping (after (redact upper text entity_type) st) !! p
         = Some text).
Proof.
  intros H. unfold after.
  destruct (_mapping st !! text) as [q|] eqn:E.
  - left. by rewrite (redact_known _ _ _ _ _ E).
  - rewrite (redact_fresh _ _ _ _ E). simpl.
    destruct (decide (make_placeholder upper text entity_type = p)) as [<-|Hne].
    + right. by rewrite !lookup_insert_eq.
    + left. by rewrite lookup_insert_ne.
Qed.

Lemma redact_forward_new st text entity_type t p :
  _mapping st !! t = None ->
  _mapping (after (redact upper text entity_type) st) !! t = Some p ->
  t = text /\ p = make_placeholder upper text entity_type.
Proof.
  unfold after. intros Hnone.
  destruct (_mapping st !! text) as [q|] eqn:E.
  - rewrite (redact_known _ _ _ _ _ E). simpl. congruence.
  - rewrite (redact_fresh _ _ _ _ E). simpl.
    rewrite lookup_insert. case_decide; [|congruence].
    intros [= <-]. by subst.
Qed.

Lemma redacts_forward_absent st st' t :
  redacts upper st st' -> _mapping st' !! t = None -> _mapping st !! t = None.
Proof.
  intros Hrun Hnone. destruct (_mapping st !! t) as [p|] eqn:E; [|done].
  apply (redacts_forward_mono _ _ _ _ _ Hrun) in E. congruence.
Qed.

Lemma redacts_forward_new st st' :
  redacts upper st st' ->
  forall t p, _mapping st !! t = None -> _mapping st' !! t = Some p ->
    exists c, p = make_placeholder upper t c.
Proof.
  induction 1 as [|st1 text entity_type Hrun IH]; [congruence |].
  intros t p Hnone Hin.
  destruct (_mapping st1 !! t) as [q|] eqn:E.
  - pose proof (redact_forward_mono upper st1 text entity_type _ _ E) as E'.
    rewrite E' in Hin. injection Hin as <-. by apply IH.
  - destruct (redact_forward_new _ _ _ _ _ E Hin) as [-> ->]. eauto.
Qed.

Lemma redacts_reverse_kept st st' :
  redacts upper st st' ->
  forall p t, _reverse_mapping st !! p = Some t ->
    _reverse_mapping st' !! p = Some t
    \/ exists t', _mapping st !! t' = None
                  /\ _mapping st' !! t' = Some p
                  /\ _reverse_mapping st' !! p = Some t'.
Proof.
  induction 1 as [|st1 text entity_type Hrun IH]; [by left |].
  intros p t Hin.
  destruct (IH p t Hin) as [H1|(t' & Hnone & Hfwd & H1)].
  - destruct (redact_reverse_step st1 text entity_type _ _ H1)
      as [H2|(Hn & Hf & H2)]; [by left |].
    right. exists text. split; [|done].
    by apply redacts_forward_absent with st1.
  - right.
    destruct (redact_reverse_step st1 text entity_type _ _ H1)
      as [H2|(Hn & Hf & H2)].
    + exists t'. split; [done |]. split; [|done].
      by apply redact_forward_mono.
    + exists text. split; [|done].
      by apply redacts_forward_absent with st1.
Qed.

(** The first [redact] of a text can be undone at once, on any state. *)
Lemma unredact_first_redact st t c :
  _mapping st !! t = None ->
  unredact (make_placeholder upper t c) (after (redact upper t c) st)
  = (Ok t, after (redact upper t c) st).
Proof.
  intros H. apply unredact_known. unfold after.
  rewrite (redact_fresh _ _ _ _ H). simpl. apply lookup_insert_eq.
Qed.

(** C2 (amended). After any finite sequence of [redact] calls on a new
    mapper, [validate_integrity] returns [True], and the two dicts have
    the same size, exactly when no two texts of the forward index share a
    placeholder; when two texts do, it returns [False] and the reverse
    dict is the smaller one. *)
Theorem validate_integrity_after_redacts st :
  reachable upper st ->
  (forward_injective st ->
     outcome validate_integrity st = Ok true
     /\ dict_len (_mapping st) = dict_len (_reverse_mapping st))
  /\ (~ forward_injective st ->
     outcome validate_integrity st = Ok false
     /\ dict_len (_reverse_mapping st) < dict_len (_mapping st)).
Proof.
  intros Hcons%reachable_consistent.
  destruct (validate_integrity_run st) as (b & Hrun & Hb).
  unfold outcome. rewrite Hrun. simpl.
  rewrite (consistent_exact_inverses _ Hcons) in Hb. split.
  - intros Hinj. split; [f_equal; by apply Hb |].
    symmetry. by apply (cons_size_eq _ Hcons).
  - intros Hninj. split.
    + destruct b; [|done]. destruct Hninj. by apply Hb.
    + pose proof (cons_size_le _ Hcons) as Hle.
      pose proof (cons_size_eq _ Hcons) as Heq.
      destruct (decide (dict_len (_reverse_mapping st) = dict_len (_mapping st)))
        as [Hs|Hs]; [|lia].
      destruct Hninj. by apply Heq.
Qed.

End Runs.

(** ** Placeholders and digest prefixes *)

Lemma string_length_app (s1 s2 : string) :
  String.length (s1 +:+ s2) = String.length s1 + String.length s2.
Proof.
  induction s1 as [|a s1 IH]; [done |].
  change (S (String.length (s1 +:+ s2)) = S (String.length s1 + String.length s2)).
  by rewrite IH.
Qed.

Lemma string_app_inj_length (s1 s1' s2 s2' : string) :
  String.length s1 = String.length s1' ->
  s1 +:+ s2 = s1' +:+ s2' -> s1 = s1' /\ s2 = s2'.
Proof.
  revert s1'. induction s1 as [|a s1 IH]; intros [|a' s1'] Hlen Heq;
    try discriminate Hlen.
  - done.
  - change (String a (s1 +:+ s2) = String a' (s1' +:+ s2')) in Heq.
    injection Heq as -> Heq. injection Hlen as Hlen.
    destruct (IH _ Hlen Heq) as [-> ->]. done.
Qed.

Lemma hex_digit_lower_hex d : is_lower_hex (Sha256.hex_digit d) = true.
Proof.
  destruct d as [|p|p]; [done | | done].
  do 4 (try destruct p as [p|p|]); done.
Qed.

(** The digest prefix is the first chaining word, printed as eight
    characters of [0-9a-f]. *)
Lemma text_hash_shape t :
  text_hash t
  = Sha256.hex_word (Sha256.ra (Sha256.digest (Sha256.bytes_of_string t))) ""
  /\ String.length (text_hash t) = 8
  /\ string_forall is_lower_hex (text_hash t) = true.
Proof.
  split; [done |]. split; [done |].
  unfold text_hash, Sha256.hexdigest, Sha256.hex_of_regs, str_prefix.
  cbn [Sha256.hex_word substring string_forall]. unfold Sha256.nibble.
  by rewrite !hex_digit_lower_hex.
Qed.

Lemma make_placeholder_split upper t c :
  exists cat,
    make_placeholder upper t c = "[REDACTED_" +:+ cat +:+ text_hash t +:+ "]".
Proof.
  unfold make_placeholder. destruct c as [e|]; [|by exists ""].
  destruct (str_truthy e); [|by exists ""].
  exists (upper e +:+ "_"). by rewrite string_app_assoc.
Qed.

(** Two placeholders coincide only if the digest prefixes do. *)
Lemma make_placeholder_eq_hash upper t1 c1 t2 c2 :
  make_placeholder upper t1 c1 = make_placeholder upper t2 c2 ->
  text_hash t1 = text_hash t2.
Proof.
  destruct (make_placeholder_split upper t1 c1) as [x1 ->].
  destruct (make_placeholder_split upper t2 c2) as [x2 ->].
  intros Heq%(inj (String.app _)).
  destruct (text_hash_shape t1) as (_ & L1 & _).
  destruct (text_hash_shape t2) as (_ & L2 & _).
  assert (Hl : String.length x1 = String.length x2).
  { apply (f_equal String.length) in Heq.
    rewrite !string_length_app, L1, L2 in Heq. lia. }
  destruct (string_app_inj_length _ _ _ _ Hl Heq) as [_ Heq'].
  apply (string_app_inj_length _ _ "]" "]"); [congruence | done].
Qed.

(** On a mapper built by [redact] calls, texts with pairwise distinct
    digest prefixes never share a placeholder, and the check passes. *)
Lemma distinct_hashes_forward_injective upper st :
  reachable upper st ->
  (forall t1 t2, is_Some (_mapping st !! t1) -> is_Some (_mapping st !! t2) ->
     text_hash t1 = text_hash t2 -> t1 = t2) ->
  forward_injective st.
Proof.
  intros Hreach Hdist. apply forward_injective_alt. intros t1 t2 p H1 H2.
  apply Hdist; [eauto.. |].
  destruct (redacts_forward_new upper _ _ Hreach t1 p) as [c1 E1]; [done.. |].
  destruct (redacts_forward_new upper _ _ Hreach t2 p) as [c2 E2]; [done.. |].
  apply (make_placeholder_eq_hash upper t1 c1 t2 c2). congruence.
Qed.

Lemma validate_integrity_distinct_hashes upper st :
  reachable upper st ->
  (forall t1 t2, is_Some (_mapping st !! t1) -> is_Some (_mapping st !! t2) ->
     text_hash t1 = text_hash t2 -> t1 = t2) ->
  validate_integrity st = (Ok true, st).
Proof.
  intros Hreach Hdist.
  destruct (validate_integrity_run st) as (b & Hrun & Hb).
  rewrite Hrun. do 2 f_equal. apply Hb.
  apply consistent_exact_inverses; [by apply reachable_consistent with upper |].
  by apply distinct_hashes_forward_injective with upper.
Qed.

(** ** Concrete runs *)

Lemma text_a_b_distinct : text_a <> text_b.
Proof. discriminate. Qed.

(** C1 fails as stated: [text_a] and [text_b] get the same placeholder, and
    once both are redacted the placeholder returned for [text_a] unredacts
    to [text_b]. *)
Lemma unredact_redact_collision :
  outcome (p <~ redact ascii_upper text_a None ;;
           redact ascii_upper text_b None ;;;
           unredact p) init = Ok text_b
  /\ outcome (redact ascii_upper text_a None) init = Ok "[REDACTED_25c9abc9]"
  /\ text_b <> text_a.
Proof. split; [|split]; [vm_compute; reflexivity.. | discriminate]. Qed.

(** C2 fails as stated: after redacting [text_a] and [text_b] the check
    returns [False]; the forward dict has two entries, the reverse dict
    one. *)
Lemma validate_integrity_collision :
  outcome (redact_all ascii_upper [(text_a, None); (text_b, None)] ;;;
           validate_integrity) init = Ok false
  /\ dict_len (_mapping
       (after (redact_all ascii_upper [(text_a, None); (text_b, None)]) init)) = 2
  /\ dict_len (_reverse_mapping
       (after (redact_all ascii_upper [(text_a, None); (text_b, None)]) init)) = 1.
Proof. split; [|split]; vm_compute; reflexivity. Qed.

(** C3 fails as stated: with the empty string given as category the
    placeholder has no category part, while the stated format has an
    empty one followed by ["_"]. *)
Lemma redact_empty_category_format :
  _mapping init !! "x" = None
  /\ outcome (redact ascii_upper "x" (Some "")) init = Ok "[REDACTED_2d711642]"
  /\ spec_placeholder ascii_upper "x" (Some "") = "[REDACTED__2d711642]"
  /\ outcome (redact ascii_upper "x" (Some "")) init
     <> Ok (spec_placeholder ascii_upper "x" (Some "")).
Proof.
  split; [reflexivity |]. split; [vm_compute; reflexivity |].
  split; [vm_compute; reflexivity |]. vm_compute. discriminate.
Qed.

(** C8 fails as stated: the reverse entry written for [text_a] is
    overwritten by the later [redact] of [text_b]. *)
Lemma reverse_entry_overwritten :
  _reverse_mapping (after (redact ascii_upper text_a None) init)
    !! "[REDACTED_25c9abc9]" = Some text_a
  /\ _reverse_mapping
       (after (redact ascii_upper text_b None)
              (after (redact ascii_upper text_a None) init))
    !! "[REDACTED_25c9abc9]" = Some text_b
  /\ text_a <> text_b.
Proof. split; [|split]; [vm_compute; reflexivity.. | discriminate]. Qed.

(** ** Instances of the theorems with hypotheses *)

Lemma validate_integrity_after_redacts_witness :
  let st := after (redact_all ascii_upper
                     [("Alice", None); ("Bob", Some "name"); ("Alice", None)]) init in
  reachable ascii_upper st
  /\ forward_injective st
  /\ outcome validate_integrity st = Ok true
  /\ dict_len (_mapping st) = dict_len (_reverse_mapping st).
Proof.
  intros st.
  assert (H1 : reachable ascii_upper st) by apply redacts_redact_all.
  assert (H2 : forward_injective st)
    by (apply (bool_decide_unpack _); vm_compute; exact I).
  split; [exact H1 |]. split; [exact H2 |].
  exact (proj1 (validate_integrity_after_redacts ascii_upper st H1) H2).
Defined.

Lemma redact_fresh_format_witness :
  _mapping init !! "john@example.com" = None
  /\ outcome (redact ascii_upper "john@example.com" (Some "email")) init
     = Ok ("[REDACTED_" +:+ (ascii_upper "email" +:+ "_")
             +:+ str_prefix 8 (Sha256.hexdigest "john@example.com") +:+ "]").
Proof.
  split; [reflexivity |].
  exact (redact_fresh_format ascii_upper init "john@example.com" (Some "email")
           eq_refl).
Defined.

Lemma redact_first_category_wins_witness :
  let st2 := after (redact ascii_upper "Bob" None)
                   (after (redact ascii_upper "test@example.com" (Some "email")) init) in
  redacts ascii_upper
    (after (redact ascii_upper "test@example.com" (Some "email")) init) st2
  /\ exists p,
       outcome (redact ascii_upper "test@example.com" (Some "email")) init = Ok p
       /\ redact ascii_upper "test@example.com" None st2 = (Ok p, st2)
       /\ _mapping st2 !! "test@example.com" = Some p
       /\ _mapping (after (redact ascii_upper "test@example.com" None) st2)
            !! "test@example.com" = Some p.
Proof.
  intros st2.
  assert (H1 : redacts ascii_upper
                 (after (redact ascii_upper "test@example.com" (Some "email")) init)
                 st2)
    by apply redacts_snoc, redacts_nil.
  split; [exact H1 |].
  exact (redact_first_category_wins ascii_upper init "test@example.com"
           (Some "email") None st2 H1).
Defined.

Lemma redact_empty_category_witness :
  _mapping init !! "x" = None
  /\ redact ascii_upper "x" (Some "") init = redact ascii_upper "x" None init
  /\ outcome (redact ascii_upper "x" (Some "")) init
     = Ok ("[REDACTED_" +:+ str_prefix 8 (Sha256.hexdigest "x") +:+ "]").
Proof.
  split; [reflexivity |].
  exact (redact_empty_category ascii_upper init "x" eq_refl).
Defined.

Lemma redact_known_unchanged_witness :
  let st := after (redact ascii_upper "Alice" None) init in
  is_Some (_mapping st !! "Alice")
  /\ after (redact ascii_upper "Alice" (Some "name")) st = st
  /\ _mapping (after (redact ascii_upper "Alice" (Some "name")) st) = _mapping st
  /\ _reverse_mapping (after (redact ascii_upper "Alice" (Some "name")) st)
     = _reverse_mapping st
  /\ exists p, _mapping st !! "Alice" = Some p
               /\ outcome (redact ascii_upper "Alice" (Some "name")) st = Ok p.
Proof.
  intros st.
  assert (H1 : is_Some (_mapping st !! "Alice"))
    by (exists "[REDACTED_3bc51062]"; vm_compute; reflexivity).
  split; [exact H1 |].
  exact (redact_known_unchanged ascii_upper st "Alice" (Some "name") H1).
Defined.

(** ** Batches of calls *)

Section Batches.
Variable upper : string -> string.

Lemma redact_run st t c :
  exists p,
    redact upper t c st = (Ok p, after (redact upper t c) st)
    /\ _mapping (after (redact upper t c) st) !! t = Some p.
Proof.
  destruct (redact_returns upper st t c) as (p & Hp & Hin).
  exists p. split; [|done]. unfold outcome, after in *.
  destruct (redact upper t c st) as [r st1]. simpl in *. by subst.
Qed.

Lemma after_redact_all_cons st t c rest :
  after (redact_all upper ((t, c) :: rest)) st
  = after (redact_all upper rest) (after (redact upper t c) st).
Proof.
  destruct (redact_returns upper st t c) as (p & Hp & _).
  unfold after, outcome in *. cbn [redact_all]. unfold bind at 1.
  destruct (redact upper t c st) as [r st1]. simpl in *. subst r.
  unfold bind. by destruct (redact_all upper rest st1) as [[ps|e] st2].
Qed.

(** A batch returns one placeholder per call: the entry the forward dict
    holds for the text of that call once the batch is over. *)
Lemma redact_all_run calls st :
  exists ps,
    redact_all upper calls st = (Ok ps, after (redact_all upper calls) st)
    /\ (fun tc => _mapping (after (redact_all upper calls) st) !! tc.1) <$> calls
       = Some <$> ps.
Proof.
  revert st. induction calls as [|[t c] rest IH]; intros st.
  - by exists [].
  - destruct (redact_run st t c) as (p & Hrun & Hin).
    destruct (IH (after (redact upper t c) st)) as (ps & Hps & Hmap).
    exists (p :: ps). rewrite after_redact_all_cons. split.
    + cbn [redact_all]. unfold bind at 1. rewrite Hrun.
      unfold bind at 1. by rewrite Hps.
    + rewrite !fmap_cons. f_equal; [|done]. simpl.
      by apply (redacts_forward_mono upper _ _ _ _ (redacts_redact_all upper rest _)).
Qed.

Lemma forward_after_redact st t c :
  _mapping (after (redact upper t c) st)
  = match _mapping st !! t with
    | Some _ => _mapping st
    | None => <[t := make_placeholder upper t c]> (_mapping st)
    end.
Proof.
  unfold after. destruct (_mapping st !! t) as [q|] eqn:E.
  - by rewrite (redact_known _ _ _ _ _ E).
  - by rewrite (redact_fresh _ _ _ _ E).
Qed.

Lemma forward_after_redact_all calls st :
  _mapping (after (redact_all upper calls) st)
  = _mapping st
    ∪ list_to_map ((fun tc => (tc.1, make_placeholder upper tc.1 tc.2)) <$> calls).
Proof.
  revert st. induction calls as [|[t c] rest IH]; intros st.
  - cbn. by rewrite (right_id_L _ _).
  - rewrite after_redact_all_cons, IH, forward_after_redact.
    rewrite fmap_cons, list_to_map_cons. simpl.
    destruct (_mapping st !! t) as [q|] eqn:E.
    + apply map_eq. intros i. rewrite !lookup_union.
      destruct (decide (i = t)) as [->|Hne].
      * rewrite E, lookup_insert_eq. by destruct (list_to_map _ !! t).
      * by rewrite lookup_insert_ne.
    + by rewrite <- insert_union_l, insert_union_r.
Qed.

(** The texts of the forward dict after a batch on a new mapper are the
    texts of the calls. *)
Lemma forward_keys_after_redact_all calls t :
  is_Some (_mapping (after (redact_all upper calls) init) !! t) <-> t ∈ calls.*1.
Proof.
  rewrite forward_after_redact_all. simpl. rewrite (left_id_L ∅ (∪) (list_to_map _)).
  set (l := (fun tc => (tc.1, make_placeholder upper tc.1 tc.2)) <$> calls).
  assert (Hfst : l.*1 = calls.*1).
  { unfold l. rewrite <- list_fmap_compose. by apply list_fmap_ext. }
  rewrite <- Hfst. split.
  - intros Hs. destruct (decide (t ∈ l.*1)) as [|Hn]; [done |].
    apply not_elem_of_list_to_map_1 in Hn.
    rewrite Hn in Hs. by destruct Hs.
  - intros Hin. destruct (list_to_map l !! t) eqn:E; [eauto |].
    by apply not_elem_of_list_to_map_2 in E.
Qed.

(** The placeholders a batch on a new mapper returns are the values of the
    forward dict. *)
Lemma returned_iff_forward_value calls ps p :
  outcome (redact_all upper calls) init = Ok ps ->
  p ∈ ps <-> exists t, _mapping (after (redact_all upper calls) init) !! t = Some p.
Proof.
  destruct (redact_all_run calls init) as (ps' & Hrun & Hmap).
  unfold outcome. rewrite Hrun. simpl. intros [= <-]. split.
  - intros Hin. apply (list_elem_of_fmap_2 Some) in Hin.
    rewrite <- Hmap in Hin. apply list_elem_of_fmap in Hin as ([t c] & Heq & _).
    by exists t.
  - intros [t Ht].
    assert (Hin : t ∈ calls.*1) by (apply forward_keys_after_redact_all; eauto).
    apply list_elem_of_fmap in Hin as ([t' c] & -> & Hin).
    apply (list_elem_of_fmap_2
             (fun tc => _mapping (after (redact_all upper calls) init) !! tc.1))
      in Hin.
    rewrite Hmap in Hin. simpl in Hin, Ht. rewrite Ht in Hin.
    apply list_elem_of_fmap in Hin as (q & [= ->] & Hq). done.
Qed.
End Batches.

(** ** Further properties of the three methods *)

Lemma unredact_Ok_iff st p t :
  outcome (unredact p) st = Ok t <-> _reverse_mapping st !! p = Some t.
Proof.
  unfold outcome. destruct (_reverse_mapping st !! p) as [u|] eqn:E.
  - rewrite (unredact_known _ _ _ E). simpl. split; congruence.
  - rewrite (unredact_unknown _ _ E). simpl. split; congruence.
Qed.

Lemma unredact_Raise_iff st p :
  (exists e, outcome (unredact p) st = Raise e) <-> _reverse_mapping st !! p = None.
Proof.
  unfold outcome. destruct (_reverse_mapping st !! p) as [u|] eqn:E.
  - rewrite (unredact_known _ _ _ E). simpl. split; [by intros [e He] | done].
  - rewrite (unredact_unknown _ _ E). simpl. split; eauto.
Qed.

Lemma outcome_bind_Ok {A B} (m : Method A) (k : A -> Method B) st a :
  outcome m st = Ok a ->
  outcome (x <~ m ;; k x) st = outcome (k a) (after m st).
Proof.
  unfold outcome, after, bind. destruct (m st) as [r st1]. simpl. by intros ->.
Qed.

Lemma hashes_distinct_alt texts :
  hashes_distinct texts = true <->
  forall t1 t2, t1 ∈ texts -> t2 ∈ texts -> text_hash t1 = text_hash t2 -> t1 = t2.
Proof.
  unfold hashes_distinct. rewrite forallb_forall. split.
  - intros H t1 t2 H1%list_elem_of_In H2%list_elem_of_In Hh.
    specialize (H t1 H1). rewrite forallb_forall in H. specialize (H t2 H2).
    apply String.eqb_eq in Hh. rewrite Hh in H. by apply String.eqb_eq.
  - intros H t1 H1%list_elem_of_In. apply forallb_forall.
    intros t2 H2%list_elem_of_In.
    destruct (String.eqb_spec (text_hash t1) (text_hash t2)) as [Hh|]; [|done].
    apply String.eqb_eq. by apply H.
Qed.

Lemma unredact_all_known st ps ts :
  Forall2 (fun p t => _reverse_mapping st !! p = Some t) ps ts ->
  unredact_all ps st = (Ok ts, st).
Proof.
  induction 1 as [|p t ps ts Hp _ IH]; [done |].
  cbn [unredact_all]. unfold bind at 1. rewrite (unredact_known _ _ _ Hp).
  unfold bind at 1. by rewrite IH.
Qed.

Section Further.
Variable upper : string -> string.

(** X1. On a mapper built by [redact] calls, whatever text [unredact p]
    returns is a text whose placeholder is [p]: redacting it again, with
    any category, returns [p] and changes nothing. *)
Theorem redact_unredact st p t c :
  reachable upper st ->
  outcome (unredact p) st = Ok t ->
  redact upper t c st = (Ok p, st).
Proof.
  intros Hcons%reachable_consistent Hun%unredact_Ok_iff.
  apply redact_known. by apply (cons_reverse _ Hcons).
Qed.

(** X2. After any batch of [redact] calls on a new mapper, [unredact]
    raises exactly on the strings that none of the calls returned. *)
Theorem unredact_raises_iff_not_returned calls :
  exists ps,
    outcome (redact_all upper calls) init = Ok ps
    /\ forall p,
         (exists e, outcome (unredact p)
                      (after (redact_all upper calls) init) = Raise e)
         <-> p ∉ ps.
Proof.
  destruct (redact_all_run upper calls init) as (ps & Hrun & _).
  assert (Hout : outcome (redact_all upper calls) init = Ok ps)
    by (unfold outcome; by rewrite Hrun).
  exists ps. split; [done |]. intros p.
  pose proof (reachable_consistent upper _ (redacts_redact_all upper calls init))
    as Hcons.
  rewrite unredact_Raise_iff, (returned_iff_forward_value upper calls ps p Hout).
  split.
  - intros Hnone [t Ht]. destruct (cons_covered _ Hcons _ _ Ht) as [u Hu].
    congruence.
  - intros Hno. destruct (_reverse_mapping _ !! p) as [u|] eqn:E; [|done].
    destruct Hno. exists u. by apply (cons_reverse _ Hcons).
Qed.

(** X3. Whenever a batch of [redact] calls returns, on any state, it
    returns one placeholder per call; the placeholder at a position is the
    entry the forward dict holds for that call's text after the batch, so
    two calls with the same text return the same placeholder whatever their
    categories. *)
Theorem redact_all_placeholders st calls ps :
  outcome (redact_all upper calls) st = Ok ps ->
  length ps = length calls
  /\ (forall i t c, calls !! i = Some (t, c) ->
        is_Some (ps !! i)
        /\ ps !! i = _mapping (after (redact_all upper calls) st) !! t)
  /\ (forall i j t c c', calls !! i = Some (t, c) -> calls !! j = Some (t, c') ->
        ps !! i = ps !! j).
Proof.
  destruct (redact_all_run upper calls st) as (ps' & Hrun & Hmap).
  unfold outcome. rewrite Hrun. simpl. intros [= ->].
  assert (Hat : forall i t c, calls !! i = Some (t, c) ->
            is_Some (ps !! i)
            /\ ps !! i = _mapping (after (redact_all upper calls) st) !! t).
  { intros i t c Hi. apply (f_equal (fun l => l !! i)) in Hmap.
    rewrite !list_lookup_fmap, Hi in Hmap. simpl in Hmap.
    destruct (ps !! i) as [p|]; [|done]. simpl in Hmap.
    injection Hmap as ->. eauto. }
  split.
  - apply (f_equal length) in Hmap. by rewrite !length_fmap in Hmap.
  - split; [exact Hat |]. intros i j t c c' Hi Hj.
    destruct (Hat _ _ _ Hi) as [_ ->]. by destruct (Hat _ _ _ Hj) as [_ ->].
Qed.

(** X4. After a batch of [redact] calls the forward dict is the dict it
    was, extended by the texts of the calls that it did not have, each with
    the placeholder built at its first occurrence; on a new mapper it is
    exactly that. *)
Theorem forward_index_after_batch st calls :
  _mapping (after (redact_all upper calls) st)
  = _mapping st
    ∪ list_to_map ((fun tc => (tc.1, make_placeholder upper tc.1 tc.2)) <$> calls)
  /\ _mapping (after (redact_all upper calls) init)
     = list_to_map ((fun tc => (tc.1, make_placeholder upper tc.1 tc.2)) <$> calls).
Proof.
  split; [apply forward_after_redact_all |].
  rewrite forward_after_redact_all. simpl. apply (left_id_L ∅ (∪)).
Qed.

(** X5. The first call of a batch that names a text the forward dict does
    not have decides its placeholder: it is the one built from that call's
    category, whatever categories later calls give. *)
Theorem first_call_decides_placeholder st calls i t c :
  _mapping st !! t = None ->
  calls !! i = Some (t, c) ->
  (forall j c', j < i -> calls !! j <> Some (t, c')) ->
  _mapping (after (redact_all upper calls) st) !! t
  = Some (make_placeholder upper t c).
Proof.
  revert st i. induction calls as [|[t0 c0] rest IH]; intros st i Hnone Hi Hfirst.
  - by rewrite lookup_nil in Hi.
  - rewrite after_redact_all_cons. destruct i as [|i].
    + injection Hi as -> ->.
      apply (redacts_forward_mono upper _ _ _ _ (redacts_redact_all upper rest _)).
      by rewrite forward_after_redact, Hnone, lookup_insert_eq.
    + assert (Hne : t0 <> t).
      { intros ->. by apply (Hfirst 0 c0); [lia |]. }
      apply (IH _ i); [| exact Hi |].
      * rewrite forward_after_redact.
        destruct (_mapping st !! t0); [done |]. by rewrite lookup_insert_ne.
      * intros j c' Hj. apply (Hfirst (S j) c'). lia.
Qed.

(** X6. One [redact] call leaves every forward entry but the one of its
    text, and every reverse entry but the one of the placeholder it
    returns, exactly as they were (present or absent). *)
Theorem redact_frame st t c :
  exists p,
    outcome (redact upper t c) st = Ok p
    /\ delete t (_mapping (after (redact upper t c) st)) = delete t (_mapping st)
    /\ delete p (_reverse_mapping (after (redact upper t c) st))
       = delete p (_reverse_mapping st).
Proof.
  unfold outcome, after. destruct (_mapping st !! t) as [q|] eqn:E.
  - exists q. by rewrite (redact_known _ _ _ _ _ E).
  - eexists. rewrite (redact_fresh _ _ _ _ E). simpl.
    split; [done |]. by rewrite !delete_insert_eq.
Qed.

(** X7. One [redact] call adds exactly one entry to the forward dict when
    the text is new and none otherwise; the reverse dict gains at most one
    entry and never loses one. *)
Theorem redact_sizes st t c :
  dict_len (_mapping (after (redact upper t c) st))
  = dict_len (_mapping st) + (if dict_contains (_mapping st) t then 0 else 1)
  /\ dict_len (_reverse_mapping st)
     <= dict_len (_reverse_mapping (after (redact upper t c) st))
  /\ dict_len (_reverse_mapping (after (redact upper t c) st))
     <= dict_len (_reverse_mapping st) + 1.
Proof.
  unfold after, dict_len. destruct (_mapping st !! t) as [q|] eqn:E.
  - rewrite (redact_known _ _ _ _ _ E), (dict_contains_Some _ _ _ E). simpl. lia.
  - rewrite (redact_fresh _ _ _ _ E), (dict_contains_None _ _ E). simpl.
    rewrite map_size_insert_None by done. rewrite map_size_insert.
    destruct (_reverse_mapping st !! _); unfold id; lia.
Qed.

(** X8. On a mapper built by [redact] calls, collisions or not: every
    reverse pair (placeholder, text) is matched by the forward pair
    (text, placeholder); every forward placeholder is a key of the reverse
    dict; the reverse dict is never the larger one. *)
Theorem reachable_indices_related st :
  reachable upper st ->
  reverse_matched st
  /\ forward_covered st
  /\ dict_len (_reverse_mapping st) <= dict_len (_mapping st).
Proof. intros [Hrev Hcov Hle _]%reachable_consistent. done. Qed.

(** X9. On a mapper built by [redact] calls the two loops of
    [validate_integrity] never decide: its result is the result of the
    length comparison alone. *)
Theorem validate_integrity_is_length_test st :
  reachable upper st ->
  outcome validate_integrity st
  = Ok (dict_len (_mapping st) =? dict_len (_reverse_mapping st))%nat.
Proof.
  intros Hcons%reachable_consistent.
  destruct (validate_integrity_run st) as (b & Hrun & Hb).
  unfold outcome. rewrite Hrun. simpl. f_equal.
  rewrite (consistent_exact_inverses _ Hcons) in Hb.
  pose proof (cons_size_eq _ Hcons) as Heq.
  destruct (Nat.eqb_spec (dict_len (_mapping st)) (dict_len (_reverse_mapping st)))
    as [Hs|Hs].
  - apply Hb, Heq. done.
  - destruct b; [|done]. destruct Hs. symmetry. by apply Heq, Hb.
Qed.
End Further.

Lemma make_placeholder_same_hash upper t1 t2 c :
  text_hash t1 = text_hash t2 ->
  make_placeholder upper t1 c = make_placeholder upper t2 c.
Proof. intros H. unfold make_placeholder. by rewrite H. Qed.

Lemma unredact_each st (fwd_lookup : string -> option string) calls ps :
  (forall t p, fwd_lookup t = Some p -> _reverse_mapping st !! p = Some t) ->
  (fun tc : string * option string => fwd_lookup tc.1) <$> calls = Some <$> ps ->
  Forall2 (fun p t => _reverse_mapping st !! p = Some t) ps calls.*1.
Proof.
  intros Hm. revert ps. induction calls as [|[t c] rest IH]; intros [|p ps] Heq;
    try discriminate Heq; [constructor |].
  rewrite !fmap_cons in Heq. injection Heq as Hp Heq.
  constructor; [by apply Hm | by apply IH].
Qed.

Lemma str_startswith_app (s x : string) : str_startswith (s +:+ x) s = true.
Proof.
  unfold str_startswith. induction s as [|a s IH].
  - by destruct x.
  - change (String.prefix (String a s) (String a (s +:+ x)) = true).
    simpl. by destruct (ascii_dec a a).
Qed.

Section FurtherBatches.
Variable upper : string -> string.

(** X10. When the texts of a batch have pairwise distinct digest
    prefixes, [validate_integrity] run after the batch on a new mapper
    returns [True]. *)
Theorem validate_integrity_after_distinct_texts calls :
  hashes_distinct calls.*1 = true ->
  outcome (redact_all upper calls ;;; validate_integrity) init = Ok true.
Proof.
  intros Hd. pose proof (proj1 (hashes_distinct_alt _) Hd) as Hd'.
  destruct (redact_all_run upper calls init) as (ps & Hrun & _).
  rewrite (outcome_bind_Ok _ (fun _ => validate_integrity) _ ps)
    by (unfold outcome; by rewrite Hrun).
  unfold outcome.
  rewrite (validate_integrity_distinct_hashes upper); [done | |].
  - apply redacts_redact_all.
  - intros t1 t2 H1%forward_keys_after_redact_all H2%forward_keys_after_redact_all.
    by apply Hd'.
Qed.

(** X11. When the texts of a batch have pairwise distinct digest
    prefixes, redacting them all on a new mapper and then unredacting the
    placeholders returned, in order, gives back the texts, in order. *)
Theorem unredact_all_redact_all calls :
  hashes_distinct calls.*1 = true ->
  outcome (ps <~ redact_all upper calls ;; unredact_all ps) init = Ok calls.*1.
Proof.
  intros Hd. pose proof (proj1 (hashes_distinct_alt _) Hd) as Hd'.
  destruct (redact_all_run upper calls init) as (ps & Hrun & Hmap).
  rewrite (outcome_bind_Ok _ unredact_all _ ps)
    by (unfold outcome; by rewrite Hrun).
  set (st := after (redact_all upper calls) init) in *.
  assert (Hreach : reachable upper st) by apply redacts_redact_all.
  assert (Hfwd : forward_matched st).
  { apply (consistent_exact_inverses st (reachable_consistent upper _ Hreach)).
    apply (distinct_hashes_forward_injective upper _ Hreach).
    intros t1 t2 H1%forward_keys_after_redact_all H2%forward_keys_after_redact_all.
    by apply Hd'. }
  unfold outcome.
  by rewrite (unredact_all_known st ps calls.*1
                (unredact_each st (fun t => _mapping st !! t) calls ps Hfwd Hmap)).
Qed.

(** X12. On a mapper built by [redact] calls, the placeholder stored for
    a text starts with ["[REDACTED_"] and ends with the digest prefix of
    that text, eight characters of [0-9a-f], followed by ["]"]. *)
Theorem placeholder_shape st t p :
  reachable upper st ->
  _mapping st !! t = Some p ->
  str_startswith p "[REDACTED_" = true
  /\ (exists cat, p = "[REDACTED_" +:+ cat +:+ text_hash t +:+ "]")
  /\ String.length (text_hash t) = 8
  /\ string_forall is_lower_hex (text_hash t) = true.
Proof.
  intros Hreach Hin.
  destruct (redacts_forward_new upper _ _ Hreach t p) as [c ->]; [done.. |].
  destruct (make_placeholder_split upper t c) as [cat Hcat].
  destruct (text_hash_shape t) as (_ & Hlen & Hhex).
  split; [rewrite Hcat; apply str_startswith_app |].
  split; [by exists cat | done].
Qed.

(** X13. The placeholders built for two new texts are the same string
    exactly when the digest prefixes of the texts are equal and the two
    categories give the same placeholder on one text. *)
Theorem make_placeholder_eq_iff t1 c1 t2 c2 :
  make_placeholder upper t1 c1 = make_placeholder upper t2 c2
  <-> text_hash t1 = text_hash t2
      /\ make_placeholder upper t1 c1 = make_placeholder upper t1 c2.
Proof.
  split.
  - intros Heq. pose proof (make_placeholder_eq_hash _ _ _ _ _ Heq) as Hh.
    split; [done |]. by rewrite (make_placeholder_same_hash upper t1 t2 c2 Hh).
  - intros [Hh Hc]. by rewrite Hc, (make_placeholder_same_hash upper t1 t2 c2 Hh).
Qed.
End FurtherBatches.

(** X15. On a newly constructed mapper [validate_integrity] returns
    [True] and [unredact] raises [ValueError], naming its argument, for
    every string. *)
Theorem new_mapper_empty p :
  outcome validate_integrity init = Ok true
  /\ outcome (unredact p) init
     = Raise (ValueError ("Placeholder '" +:+ p +:+ "' not found in mapping"))
  /\ after (unredact p) init = init.
Proof.
  split; [by vm_compute |]. unfold outcome, after.
  by rewrite (unredact_unknown init p (lookup_empty p)).
Qed.

(** X14. The first [redact] of a text followed at once by [unredact] of
    the placeholder returned gives the text back, on any state whatever,
    also when another text already has that placeholder. *)
Theorem redact_then_unredact upper st t c :
  _mapping st !! t = None ->
  outcome (p <~ redact upper t c ;; unredact p) st = Ok t.
Proof.
  intros H.
  rewrite (outcome_bind_Ok _ unredact _ (make_placeholder upper t c))
    by (unfold outcome; by rewrite (redact_fresh _ _ _ _ H)).
  unfold outcome. by rewrite (unredact_first_redact upper st t c H).
Qed.

(** ** Instances of the further theorems with hypotheses *)

Lemma redact_unredact_witness :
  let st := after (redact_all ascii_upper [(text_a, None); (text_b, None)]) init in
  reachable ascii_upper st
  /\ outcome (unredact "[REDACTED_25c9abc9]") st = Ok text_b
  /\ redact ascii_upper text_b (Some "email") st = (Ok "[REDACTED_25c9abc9]", st).
Proof.
  intros st.
  assert (H1 : reachable ascii_upper st) by apply redacts_redact_all.
  assert (H2 : outcome (unredact "[REDACTED_25c9abc9]") st = Ok text_b)
    by (vm_compute; reflexivity).
  split; [exact H1 |]. split; [exact H2 |].
  exact (redact_unredact ascii_upper st "[REDACTED_25c9abc9]" text_b
           (Some "email") H1 H2).
Defined.

Lemma first_call_decides_placeholder_witness :
  let calls := [("Alice", Some "name"); ("Bob", None); ("Bob", Some "name")] in
  _mapping init !! "Bob" = None
  /\ calls !! 1 = Some ("Bob", None)
  /\ (forall j c', j < 1 -> calls !! j <> Some ("Bob", c'))
  /\ _mapping (after (redact_all ascii_upper calls) init) !! "Bob"
     = Some (make_placeholder ascii_upper "Bob" None).
Proof.
  intros calls.
  assert (H3 : forall j c', j < 1 -> calls !! j <> Some ("Bob", c'))
    by (intros [|j] c' Hj; [discriminate | lia]).
  split; [reflexivity |]. split; [reflexivity |]. split; [exact H3 |].
  exact (first_call_decides_placeholder ascii_upper init calls 1 "Bob" None
           eq_refl eq_refl H3).
Defined.

Lemma reachable_indices_related_witness :
  let st := after (redact_all ascii_upper [(text_a, None); (text_b, None)]) init in
  reachable ascii_upper st
  /\ reverse_matched st
  /\ forward_covered st
  /\ dict_len (_reverse_mapping st) <= dict_len (_mapping st).
Proof.
  intros st.
  assert (H1 : reachable ascii_upper st) by apply redacts_redact_all.
  split; [exact H1 |].
  exact (reachable_indices_related ascii_upper st H1).
Defined.

Lemma validate_integrity_is_length_test_witness :
  let st := after (redact_all ascii_upper [(text_a, None); (text_b, None)]) init in
  reachable ascii_upper st
  /\ outcome validate_integrity st
     = Ok (dict_len (_mapping st) =? dict_len (_reverse_mapping st))%nat.
Proof.
  intros st.
  assert (H1 : reachable ascii_upper st) by apply redacts_redact_all.
  split; [exact H1 |].
  exact (validate_integrity_is_length_test ascii_upper st H1).
Defined.

Lemma validate_integrity_after_distinct_texts_witness :
  let calls := [("Name1", None); ("Name2", Some "name"); ("Name1", Some "name")] in
  hashes_distinct calls.*1 = true
  /\ outcome (redact_all ascii_upper calls ;;; validate_integrity) init = Ok true.
Proof.
  intros calls.
  assert (H1 : hashes_distinct calls.*1 = true) by (vm_compute; reflexivity).
  split; [exact H1 |].
  exact (validate_integrity_after_distinct_texts ascii_upper calls H1).
Defined.

Lemma unredact_all_redact_all_witness :
  let calls := [("Alice", None); ("Bob", Some "name"); ("Alice", Some "name")] in
  hashes_distinct calls.*1 = true
  /\ outcome (ps <~ redact_all ascii_upper calls ;; unredact_all ps) init
     = Ok ["Alice"; "Bob"; "Alice"].
Proof.
  intros calls.
  assert (H1 : hashes_distinct calls.*1 = true) by (vm_compute; reflexivity).
  split; [exact H1 |].
  exact (unredact_all_redact_all ascii_upper calls H1).
Defined.

Lemma placeholder_shape_witness :
  let st := after (redact_all ascii_upper
                     [("john@example.com", Some "email"); ("Bob", None)]) init in
  reachable ascii_upper st
  /\ _mapping st !! "john@example.com" = Some "[REDACTED_EMAIL_855f96e9]"
  /\ str_startswith "[REDACTED_EMAIL_855f96e9]" "[REDACTED_" = true
  /\ (exists cat, "[REDACTED_EMAIL_855f96e9]"
                  = "[REDACTED_" +:+ cat +:+ text_hash "john@example.com" +:+ "]")
  /\ String.length (text_hash "john@example.com") = 8
  /\ string_forall is_lower_hex (text_hash "john@example.com") = true.
Proof.
  intros st.
  assert (H1 : reachable ascii_upper st) by apply redacts_redact_all.
  assert (H2 : _mapping st !! "john@example.com" = Some "[REDACTED_EMAIL_855f96e9]")
    by (vm_compute; reflexivity).
  split; [exact H1 |]. split; [exact H2 |].
  exact (placeholder_shape ascii_upper st "john@example.com"
           "[REDACTED_EMAIL_855f96e9]" H1 H2).
Defined.

Lemma redact_then_unredact_witness :
  let st := after (redact ascii_upper text_a None) init in
  _mapping st !! text_b = None
  /\ outcome (p <~ redact ascii_upper text_b None ;; unredact p) st = Ok text_b.
Proof.
  intros st.
  assert (H1 : _mapping st !! text_b = None) by (vm_compute; reflexivity).
  split; [exact H1 |].
  exact (redact_then_unredact ascii_upper st text_b None H1).
Defined.

(** ** Which text a placeholder unredacts to *)

Section LastWriter.
Variable upper : string -> string.

(** A text that entered the forward dict during a run sits with its
    placeholder under a reverse entry that was written during the run. *)
Lemma redacts_reverse_of_added st1 st2 :
  redacts upper st1 st2 ->
  forall t' p, _mapping st1 !! t' = None -> _mapping st2 !! t' = Some p ->
    exists u, _reverse_mapping st2 !! p = Some u /\ _mapping st1 !! u = None.
Proof.
  induction 1 as [|st' text e Hrun IH]; [congruence |].
  intros t' p Hnone Hin.
  destruct (_mapping st' !! t') as [q|] eqn:E.
  - pose proof (redact_forward_mono upper st' text e _ _ E) as E'.
    rewrite E' in Hin. injection Hin as ->.
    destruct (IH _ _ Hnone E) as (u & Hu & Hun).
    destruct (redact_reverse_step upper st' text e _ _ Hu) as [H2|(Hn & _ & H2)].
    + by exists u.
    + exists text. split; [done |]. by apply (redacts_forward_absent upper st1 st').
  - destruct (redact_forward_new upper _ _ _ _ _ E Hin) as [-> ->].
    exists text. split; [|done]. unfold after.
    rewrite (redact_fresh _ _ _ _ E). simpl. apply lookup_insert_eq.
Qed.

(** After the first [redact] of [t], [unredact] of its placeholder returns
    [t] exactly as long as no text that entered the forward dict later has
    that placeholder. *)
Lemma unredact_after_first_redact st0 t c0 st2 :
  _mapping st0 !! t = None ->
  redacts upper (after (redact upper t c0) st0) st2 ->
  unredact (make_placeholder upper t c0) st2 = (Ok t, st2)
  <-> none_added_since (after (redact upper t c0) st0) st2
        (make_placeholder upper t c0).
Proof.
  intros Hfresh Hrun.
  set (st1 := after (redact upper t c0) st0) in *.
  set (p := make_placeholder upper t c0).
  assert (Hf1 : _mapping st1 !! t = Some p).
  { unfold st1, after. rewrite (redact_fresh _ _ _ _ Hfresh). simpl.
    apply lookup_insert_eq. }
  assert (Hr1 : _reverse_mapping st1 !! p = Some t).
  { unfold st1, after. rewrite (redact_fresh _ _ _ _ Hfresh). simpl.
    apply lookup_insert_eq. }
  split.
  - intros Hun t' Ht'.
    assert (Hr2 : _reverse_mapping st2 !! p = Some t).
    { apply unredact_Ok_iff. unfold outcome. by rewrite Hun. }
    destruct (_mapping st1 !! t') as [q|] eqn:E; [eauto |].
    destruct (redacts_reverse_of_added _ _ Hrun _ _ E Ht') as (u & Hu & Hun').
    congruence.
  - intros Hnone. apply unredact_known.
    destruct (redacts_reverse_kept upper _ _ Hrun _ _ Hr1)
      as [H2|(t' & Hn & Hf & _)]; [done |].
    destruct (Hnone _ Hf) as [q Hq]. congruence.
Qed.

(** Every text of the forward dict of a reachable state entered it by a
    [redact] call on an earlier reachable state. *)
Lemma first_redact_exists st t p :
  reachable upper st ->
  _mapping st !! t = Some p ->
  exists st0 c0,
    reachable upper st0
    /\ _mapping st0 !! t = None
    /\ redacts upper (after (redact upper t c0) st0) st
    /\ p = make_placeholder upper t c0.
Proof.
  unfold reachable. induction 1 as [|st1 text e Hrun IH]; intros Hin.
  - simpl in Hin. by rewrite lookup_empty in Hin.
  - destruct (_mapping st1 !! t) as [q|] eqn:E.
    + pose proof (redact_forward_mono upper st1 text e _ _ E) as E'.
      rewrite E' in Hin. injection Hin as ->.
      destruct (IH eq_refl) as (st0 & c0 & H0 & Hn & Hr & Hp).
      exists st0, c0. split; [done |]. split; [done |]. split; [|done].
      by apply redacts_snoc.
    + destruct (redact_forward_new upper _ _ _ _ _ E Hin) as [-> ->].
      exists st1, e. split; [done |]. split; [done |]. split; [|done].
      apply redacts_nil.
Qed.

(** C1 (amended). On a mapper built by [redact] calls only, [redact t c]
    returns a placeholder [p]; [unredact p], called at once or after any
    further [redact] calls, raises nothing, changes nothing and returns a
    text whose stored placeholder is [p]; it returns [t] exactly when no
    text that entered the forward dict after [t] did has the placeholder
    [p].  ([st0] is the state on which [t] was first redacted.) *)
Theorem unredact_redact st t c st2 :
  reachable upper st ->
  redacts upper (after (redact upper t c) st) st2 ->
  exists p,
    outcome (redact upper t c) st = Ok p
    /\ (exists u, unredact p st2 = (Ok u, st2) /\ _mapping st2 !! u = Some p)
    /\ exists st0 c0,
         reachable upper st0
         /\ _mapping st0 !! t = None
         /\ outcome (redact upper t c0) st0 = Ok p
         /\ redacts upper (after (redact upper t c0) st0)
                          (after (redact upper t c) st)
         /\ (unredact p st2 = (Ok t, st2)
             <-> none_added_since (after (redact upper t c0) st0) st2 p).
Proof.
  intros Hreach Hrun.
  destruct (redact_returns upper st t c) as (p & Hp & Hin).
  exists p. split; [done |].
  assert (Hreach1 : reachable upper (after (redact upper t c) st))
    by by apply redacts_snoc.
  assert (Hcons : consistent st2).
  { eapply consistent_redacts; [|exact Hrun]. by apply reachable_consistent with upper. }
  pose proof (redacts_forward_mono _ _ _ _ _ Hrun Hin) as Hin2.
  split.
  - destruct (cons_covered _ Hcons _ _ Hin2) as [u Hu].
    exists u. split; [by apply unredact_known |]. by apply (cons_reverse _ Hcons).
  - destruct (first_redact_exists _ _ _ Hreach1 Hin) as (st0 & c0 & H0 & Hn & Hr & ->).
    exists st0, c0. split; [done |]. split; [done |].
    split; [unfold outcome; by rewrite (redact_fresh _ _ _ _ Hn) |].
    split; [done |].
    apply unredact_after_first_redact; [done |].
    by apply redacts_trans with (after (redact upper t c) st).
Qed.
End LastWriter.

(** ** Which entries a batch of calls creates and overwrites *)

Section Entries.
Variable upper : string -> string.

Lemma reverse_after_redact st t c :
  _reverse_mapping (after (redact upper t c) st)
  = match _mapping st !! t with
    | Some _ => _reverse_mapping st
    | None => <[make_placeholder upper t c := t]> (_reverse_mapping st)
    end.
Proof.
  unfold after. destruct (_mapping st !! t) as [q|] eqn:E.
  - by rewrite (redact_known _ _ _ _ _ E).
  - by rewrite (redact_fresh _ _ _ _ E).
Qed.

Lemma adds_text_head st t0 c0 rest t c :
  adds_text st ((t0, c0) :: rest) 0 t c
  <-> t = t0 /\ c = c0 /\ _mapping st !! t0 = None.
Proof.
  unfold adds_text. split.
  - intros ([= -> ->] & Hn & _). done.
  - intros (-> & -> & Hn). split; [done |]. split; [done |]. intros j c' Hj. lia.
Qed.

Lemma adds_text_tail st t0 c0 rest k t c :
  adds_text st ((t0, c0) :: rest) (S k) t c
  <-> adds_text (after (redact upper t0 c0) st) rest k t c.
Proof.
  unfold adds_text. rewrite forward_after_redact. split.
  - intros (Hk & Hn & Hfirst).
    assert (Hne : t0 <> t) by (intros ->; by apply (Hfirst 0 c0); [lia |]).
    split; [done |]. split.
    + destruct (_mapping st !! t0); [done |]. by rewrite lookup_insert_ne.
    + intros j c' Hj. apply (Hfirst (S j) c'). lia.
  - intros (Hk & Hn & Hfirst).
    assert (Hne : t0 <> t).
    { intros ->. destruct (_mapping st !! t) eqn:E; [congruence |].
      by rewrite lookup_insert_eq in Hn. }
    split; [done |]. split.
    + destruct (_mapping st !! t0); [done |]. by rewrite lookup_insert_ne in Hn.
    + intros [|j] c' Hj; [simpl; congruence |]. apply Hfirst. lia.
Qed.

(** The call that adds a text decides its forward entry. *)
Lemma forward_of_added st calls i t c :
  adds_text st calls i t c ->
  _mapping (after (redact_all upper calls) st) !! t
  = Some (make_placeholder upper t c).
Proof.
  revert st i. induction calls as [|[t0 c0] rest IH]; intros st i Hadd.
  - destruct Hadd as (Hi & _). by rewrite lookup_nil in Hi.
  - rewrite after_redact_all_cons. destruct i as [|i].
    + apply adds_text_head in Hadd as (-> & -> & Hn).
      apply (redacts_forward_mono upper _ _ _ _ (redacts_redact_all upper rest _)).
      by rewrite forward_after_redact, Hn, lookup_insert_eq.
    + apply adds_text_tail in Hadd. by apply (IH _ i).
Qed.

(** A text the batch brings into the forward dict is added by one of its
    calls. *)
Lemma added_of_forward st calls t p :
  _mapping st !! t = None ->
  _mapping (after (redact_all upper calls) st) !! t = Some p ->
  exists i c, adds_text st calls i t c.
Proof.
  revert st. induction calls as [|[t0 c0] rest IH]; intros st Hn Hin.
  - cbn in Hin. congruence.
  - destruct (decide (t = t0)) as [->|Hne].
    + exists 0, c0. by apply adds_text_head.
    + rewrite after_redact_all_cons in Hin.
      destruct (IH (after (redact upper t0 c0) st)) as (i & c & Hadd); [|done |].
      * rewrite forward_after_redact.
        destruct (_mapping st !! t0); [done |]. by rewrite lookup_insert_ne.
      * exists (S i), c. by apply adds_text_tail.
Qed.

(** A placeholder that no added text gets keeps its reverse entry, or
    stays absent. *)
Lemma reverse_untouched st calls p :
  (forall i t c, adds_text st calls i t c -> make_placeholder upper t c <> p) ->
  _reverse_mapping (after (redact_all upper calls) st) !! p
  = _reverse_mapping st !! p.
Proof.
  revert st. induction calls as [|[t0 c0] rest IH]; intros st Hno; [done |].
  rewrite after_redact_all_cons, IH.
  - rewrite reverse_after_redact. destruct (_mapping st !! t0) eqn:E; [done |].
    rewrite lookup_insert_ne; [done |]. apply (Hno 0 t0 c0).
    by apply adds_text_head.
  - intros i t c Hadd. apply (Hno (S i)). by apply adds_text_tail.
Qed.

(** The reverse entry of a placeholder holds the text added last among
    those that get it. *)
Lemma reverse_of_last_added st calls i t c :
  adds_text st calls i t c ->
  (forall k t' c', i < k -> adds_text st calls k t' c' ->
     make_placeholder upper t' c' <> make_placeholder upper t c) ->
  _reverse_mapping (after (redact_all upper calls) st)
    !! make_placeholder upper t c = Some t.
Proof.
  revert st i. induction calls as [|[t0 c0] rest IH]; intros st i Hadd Hlast.
  - destruct Hadd as (Hi & _). by rewrite lookup_nil in Hi.
  - rewrite after_redact_all_cons. destruct i as [|i].
    + apply adds_text_head in Hadd as (-> & -> & Hn).
      rewrite reverse_untouched.
      * by rewrite reverse_after_redact, Hn, lookup_insert_eq.
      * intros k t' c' Hadd'. apply (Hlast (S k)); [lia |].
        by apply adds_text_tail.
    + apply adds_text_tail in Hadd. apply (IH _ i); [done |].
      intros k t' c' Hk Hadd'. apply (Hlast (S k)); [lia |].
      by apply adds_text_tail.
Qed.

(** C8 (amended). Over any sequence of [redact] calls, from any state:
    every forward pair present before is present with the same placeholder
    after; a text that was not in the forward dict is in it afterwards
    exactly when one of the calls names it, with the placeholder built by
    the first call that names it; no reverse key is deleted; the reverse
    entry of a placeholder is exactly as before (same text, or still
    absent) when no text added by the calls gets that placeholder, and
    otherwise holds the text added last among those that get it, whatever
    it held before. *)
Theorem redacts_preserve_entries st calls :
  (forall t p, _mapping st !! t = Some p ->
     _mapping (after (redact_all upper calls) st) !! t = Some p)
  /\ (forall t p, _mapping st !! t = None ->
        (_mapping (after (redact_all upper calls) st) !! t = Some p
         <-> exists i c, adds_text st calls i t c
                         /\ p = make_placeholder upper t c))
  /\ (forall p u, _reverse_mapping st !! p = Some u ->
        is_Some (_reverse_mapping (after (redact_all upper calls) st) !! p))
  /\ (forall p,
        (forall i t c, adds_text st calls i t c ->
           make_placeholder upper t c <> p) ->
        _reverse_mapping (after (redact_all upper calls) st) !! p
        = _reverse_mapping st !! p)
  /\ (forall i t c,
        adds_text st calls i t c ->
        (forall k t' c', i < k -> adds_text st calls k t' c' ->
           make_placeholder upper t' c' <> make_placeholder upper t c) ->
        _reverse_mapping (after (redact_all upper calls) st)
          !! make_placeholder upper t c = Some t).
Proof.
  split; [|split; [|split; [|split]]].
  - intros t p. apply redacts_forward_mono with upper, redacts_redact_all.
  - intros t p Hn. split.
    + intros Hin. destruct (added_of_forward _ _ _ _ Hn Hin) as (i & c & Hadd).
      exists i, c. split; [done |].
      rewrite (forward_of_added _ _ _ _ _ Hadd) in Hin. congruence.
    + intros (i & c & Hadd & ->). by apply forward_of_added with i.
  - intros p u Hu.
    destruct (redacts_reverse_kept upper _ _ (redacts_redact_all upper calls st) _ _ Hu)
      as [H|(t' & _ & _ & H)]; eauto.
  - apply reverse_untouched.
  - apply reverse_of_last_added.
Qed.
End Entries.

(** ** Instances of the theorems of the last two sections *)

(** Of two texts with the same placeholder, the one redacted for the first
    time last is the one [unredact] returns. *)
Example unredact_last_colliding_text :
  outcome (redact ascii_upper text_a None ;;;
           p <~ redact ascii_upper text_b None ;;
           redact ascii_upper text_a None ;;;
           unredact p) init = Ok text_b.
Proof. vm_compute. reflexivity. Qed.

Lemma unredact_redact_witness :
  let st := after (redact ascii_upper text_a None) init in
  let st2 := after (redact ascii_upper "Bob" (Some "name"))
                   (after (redact ascii_upper text_b None) st) in
  reachable ascii_upper st
  /\ redacts ascii_upper (after (redact ascii_upper text_b None) st) st2
  /\ exists p,
       outcome (redact ascii_upper text_b None) st = Ok p
       /\ (exists u, unredact p st2 = (Ok u, st2) /\ _mapping st2 !! u = Some p)
       /\ exists st0 c0,
            reachable ascii_upper st0
            /\ _mapping st0 !! text_b = None
            /\ outcome (redact ascii_upper text_b c0) st0 = Ok p
            /\ redacts ascii_upper (after (redact ascii_upper text_b c0) st0)
                                   (after (redact ascii_upper text_b None) st)
            /\ (unredact p st2 = (Ok text_b, st2)
                <-> none_added_since (after (redact ascii_upper text_b c0) st0) st2 p).
Proof.
  intros st st2.
  assert (H1 : reachable ascii_upper st) by apply redacts_snoc, redacts_nil.
  assert (H2 : redacts ascii_upper (after (redact ascii_upper text_b None) st) st2)
    by apply redacts_snoc, redacts_nil.
  split; [exact H1 |]. split; [exact H2 |].
  exact (unredact_redact ascii_upper st text_b None st2 H1 H2).
Defined.

Lemma redacts_preserve_entries_witness :
  let st := after (redact ascii_upper text_a None) init in
  let calls := [(text_b, None); ("Bob", Some "name"); (text_b, Some "name")] in
  adds_text st calls 0 text_b None
  /\ (forall k t' c', 0 < k -> adds_text st calls k t' c' ->
        make_placeholder ascii_upper t' c' <> make_placeholder ascii_upper text_b None)
  /\ _reverse_mapping st !! make_placeholder ascii_upper text_b None = Some text_a
  /\ _reverse_mapping (after (redact_all ascii_upper calls) st)
       !! make_placeholder ascii_upper text_b None = Some text_b.
Proof.
  intros st calls.
  assert (H1 : adds_text st calls 0 text_b None).
  { split; [reflexivity |]. split; [vm_compute; reflexivity |]. intros j c' Hj. lia. }
  assert (H2 : forall k t' c', 0 < k -> adds_text st calls k t' c' ->
             make_placeholder ascii_upper t' c'
             <> make_placeholder ascii_upper text_b None).
  { intros k t' c' Hk (Hi & Hn & Hfirst). destruct k as [|[|[|k]]]; [lia | | |].
    - injection Hi as <- <-. vm_compute. discriminate.
    - injection Hi as <- <-. destruct (Hfirst 0 None); [lia | reflexivity].
    - discriminate Hi. }
  split; [exact H1 |]. split; [exact H2 |].
  split; [vm_compute; reflexivity |].
  exact (proj2 (proj2 (proj2 (proj2
           (redacts_preserve_entries ascii_upper st calls)))) 0 text_b None H1 H2).
Defined.

Lemma redact_all_placeholders_witness :
  let calls := [("Alice", Some "name"); ("Bob", None); ("Alice", None)] in
  let ps := ["[REDACTED_NAME_3bc51062]"; "[REDACTED_cd9fb1e1]";
             "[REDACTED_NAME_3bc51062]"] in
  outcome (redact_all ascii_upper calls) init = Ok ps
  /\ length ps = length calls
  /\ (forall i t c, calls !! i = Some (t, c) ->
        is_Some (ps !! i)
        /\ ps !! i = _mapping (after (redact_all ascii_upper calls) init) !! t)
  /\ (forall i j t c c', calls !! i = Some (t, c) -> calls !! j = Some (t, c') ->
        ps !! i = ps !! j).
Proof.
  intros calls ps.
  assert (H1 : outcome (redact_all ascii_upper calls) init = Ok ps)
    by (vm_compute; reflexivity).
  split; [exact H1 |].
  exact (redact_all_placeholders ascii_upper init calls ps H1).
Defined.
